(** * Joint bilateral upsampling (src/app.py): embedding and properties

    The development embeds [joint_bilateral_upsampling] of [src/app.py]
    in a state-and-exception monad over a store of numpy arrays, and
    proves properties of the spatial kernel, of the per-pixel weighted
    sum, of the shape of the result and of the effect on the store.

    Numbers.  A numpy [float64] is modelled by [npfloat]: an exact real,
    an infinity or [nan].  Rounding and overflow are not modelled (a
    finite result is the exact real); the special values are, because
    numpy divides by zero without raising.  Python scalars ([sigma_spatial],
    [sigma_range], the exponent of a kernel entry) are exact reals, and
    dividing one of them by zero raises [ZeroDivisionError] as Python does.
    Arrays are [float64] arrays, the real-valued grids of the
    specification; integer arrays, whose arithmetic wraps around, are
    outside the embedding.  [cv2.resize] is OpenCV's and is a
    parameter. *)

From Stdlib Require Import Reals Lra Lia ZArith Ascii.
From Stdlib Require String.
From stdpp Require Import base option list gmap strings.

(** ** numpy floats *)

Inductive npfloat : Type :=
| Fin (r : R)
| PInf
| NInf
| NaN.

(** The infinity (or nan) that a non-zero (or zero) real turns into when
    it is divided by [+0.0] or multiplied by [+inf]. *)
Definition signed_inf (r : R) : npfloat :=
  if Rlt_dec 0 r then PInf else if Rlt_dec r 0 then NInf else NaN.

Definition nf_neg (x : npfloat) : npfloat :=
  match x with
  | Fin r => Fin (- r)
  | PInf => NInf
  | NInf => PInf
  | NaN => NaN
  end.

Definition nf_add (x y : npfloat) : npfloat :=
  match x, y with
  | Fin a, Fin b => Fin (a + b)
  | NaN, _ | _, NaN => NaN
  | PInf, NInf | NInf, PInf => NaN
  | PInf, _ | _, PInf => PInf
  | NInf, _ | _, NInf => NInf
  end.

Definition nf_sub (x y : npfloat) : npfloat := nf_add x (nf_neg y).

Definition nf_mul (x y : npfloat) : npfloat :=
  match x, y with
  | Fin a, Fin b => Fin (a * b)
  | NaN, _ | _, NaN => NaN
  | Fin a, PInf | PInf, Fin a => signed_inf a
  | Fin a, NInf | NInf, Fin a => signed_inf (- a)
  | PInf, PInf | NInf, NInf => PInf
  | PInf, NInf | NInf, PInf => NInf
  end.

(** Division as numpy does it: no exception, a zero divisor gives an
    infinity or nan.  Zero divisors are read as [+0.0]: every divisor of
    this program is a square, or a sum to which [1e-10] is added. *)
Definition nf_div (x y : npfloat) : npfloat :=
  match x, y with
  | Fin a, Fin b => if Req_dec_T b 0 then signed_inf a else Fin (a / b)
  | NaN, _ | _, NaN => NaN
  | Fin _, (PInf | NInf) => Fin 0
  | (PInf | NInf), (PInf | NInf) => NaN
  | PInf, Fin b => if Rlt_dec b 0 then NInf else PInf
  | NInf, Fin b => if Rlt_dec b 0 then PInf else NInf
  end.

Definition nf_exp (x : npfloat) : npfloat :=
  match x with
  | Fin r => Fin (exp r)
  | PInf => PInf
  | NInf => Fin 0
  | NaN => NaN
  end.

(** [x ** 2] on an array element. *)
Definition nf_sq (x : npfloat) : npfloat := nf_mul x x.

(** The literal [1e-10]. *)
Definition eps : R := (1 / 10 ^ 10)%R.

(** ** Python integers and floats *)

(** [int(x)] of a float: truncation towards zero. *)
Definition py_int (x : R) : Z :=
  if Rle_dec 0 x then Zfloor x else Zceil x.

(** ** Arrays *)

(** A two-dimensional [ndarray] is the list of its rows.  numpy arrays are
    rectangular: [rect h w a] says so.  An array without rows has width 0
    here. *)
Abbreviation ndarray := (list (list npfloat)).

Definition shape0 {A} (a : list (list A)) : nat := length a.
Definition shape1 {A} (a : list (list A)) : nat :=
  match a with
  | [] => 0
  | row :: _ => length row
  end.

Definition rect {A} (h w : nat) (a : list (list A)) : Prop :=
  length a = h ∧ Forall (λ row, length row = w) a.

(** [a[i, j]] as an option. *)
Definition get2 {A} (a : list (list A)) (i j : nat) : option A :=
  row ← a !! i; row !! j.

(** [a[i, j] = v] on an index that is in range. *)
Definition set2 {A} (a : list (list A)) (i j : nat) (v : A) : list (list A) :=
  alter (λ row, <[j := v]> row) i a.

(** The array whose entry [(i, j)] is [f i j]. *)
Definition tabulate {A} (h w : nat) (f : nat → nat → A) : list (list A) :=
  (λ i, f i <$> seq 0 w) <$> seq 0 h.

(** [np.zeros((h, w))]. *)
Definition np_zeros (h w : nat) : ndarray := replicate h (replicate w (Fin 0)).

(** [range(lo, hi)] for non-negative bounds. *)
Definition py_range (lo hi : nat) : list nat := seq lo (hi - lo).

(** [l[lo:hi]] for non-negative bounds: a slice stops at the end of the
    list without raising. *)
Definition py_slice {A} (lo hi : nat) (l : list A) : list A :=
  take (hi - lo) (drop lo l).

(** [a[r0:r1, c0:c1]]. *)
Definition slice2 {A} (r0 r1 c0 c1 : nat) (a : list (list A)) : list (list A) :=
  py_slice c0 c1 <$> py_slice r0 r1 a.

(** One axis of [np.pad(_, (p, p), mode='edge')]: the first and the last
    element are repeated [p] times. *)
Definition pad_edge_list {A} (p : nat) (l : list A) : list A :=
  match l with
  | [] => []
  | x :: _ => replicate p x ++ l ++ replicate p (default x (last l))
  end.

(** [np.pad(a, ((p, p), (p, p)), mode='edge')] on an array with no empty
    axis. *)
Definition pad_edge {A} (p : nat) (a : list (list A)) : list (list A) :=
  pad_edge_list p (pad_edge_list p <$> a).

(** [a.sum()]: the sum of all entries. *)
Definition np_sum (a : ndarray) : npfloat := foldr nf_add (Fin 0) (concat a).

(** Element-wise product of two arrays of the same shape. *)
Definition mul2 (a b : ndarray) : ndarray := zip_with (zip_with nf_mul) a b.

(** [a / c] (and [a /= c]) for a scalar [c]. *)
Definition div_scalar (a : ndarray) (c : npfloat) : ndarray :=
  fmap (M := list) (fmap (M := list) (λ x, nf_div x c)) a.

(** ** The store and the monad *)

(** Python exceptions the function can raise.  [DanglingRef] is an
    artefact of the store: a reference to an object that does not exist,
    which Python excludes. *)
Inductive exn : Type :=
| ZeroDivisionError
| ValueError
| IndexError
| Cv2Error
| DanglingRef.

Definition loc := nat.

(** The store maps references to array objects. *)
Abbreviation store := (gmap loc ndarray).

(** A computation takes the store and gives the new store with a value
    or a raised exception. *)
Definition M (A : Type) : Type := store → store * (exn + A).

Definition ret {A} (a : A) : M A := λ s, (s, inr a).

Definition bind {A B} (m : M A) (k : A → M B) : M B :=
  λ s, match m s with
       | (s', inr a) => k a s'
       | (s', inl e) => (s', inl e)
       end.

Definition raise {A} (e : exn) : M A := λ s, (s, inl e).

Declare Scope py_scope.
Delimit Scope py_scope with py.
Notation "x <- m ;; k" := (bind m (λ x, k))
  (at level 100, m at next level, right associativity) : py_scope.
Notation "m ;;; k" := (bind m (λ _, k))
  (at level 100, right associativity) : py_scope.
Local Open Scope py_scope.

(** A new object: its reference is fresh for the store. *)
Definition alloc (a : ndarray) : M loc :=
  λ s, let l := fresh (dom s) in (<[l := a]> s, inr l).

(** Reading the object behind a reference. *)
Definition load (l : loc) : M ndarray :=
  λ s, match s !! l with
       | Some a => (s, inr a)
       | None => (s, inl DanglingRef)
       end.

(** Replacing the contents of an object in place. *)
Definition update (l : loc) (f : ndarray → ndarray) : M unit :=
  λ s, match s !! l with
       | Some a => (<[l := f a]> s, inr tt)
       | None => (s, inl DanglingRef)
       end.

(** [a[i, j]] for an array value: [IndexError] out of range. *)
Definition getitem (a : ndarray) (i j : nat) : M npfloat :=
  match get2 a i j with
  | Some v => ret v
  | None => raise IndexError
  end.

(** [obj[i, j] = v], in place: [IndexError] out of range. *)
Definition setitem (l : loc) (i j : nat) (v : npfloat) : M unit :=
  a <- load l;;
  match get2 a i j with
  | Some _ => update l (λ a, set2 a i j v)
  | None => raise IndexError
  end.

(** [for x in xs: body(x)]. *)
Fixpoint for_each (xs : list nat) (body : nat → M unit) : M unit :=
  match xs with
  | [] => ret tt
  | x :: rest => body x;;; for_each rest body
  end.

(** [a // b] on non-negative integers. *)
Definition py_floordiv (a b : nat) : M nat :=
  if decide (b = 0) then raise ZeroDivisionError else ret (a `div` b).

(** [a / b] on Python floats. *)
Definition py_truediv (a b : R) : M R :=
  if Req_dec_T b 0 then raise ZeroDivisionError else ret (a / b)%R.

(** [np.zeros((k, k))] for a Python integer [k]. *)
Definition np_zeros_square (k : Z) : M loc :=
  if decide (k < 0)%Z then raise ValueError
  else alloc (np_zeros (Z.to_nat k) (Z.to_nat k)).

(** [np.pad(a, ((p, p), (p, p)), mode='edge')]: numpy refuses to extend
    an empty axis. *)
Definition np_pad_edge (p : nat) (a : ndarray) : M loc :=
  if decide (0 < p ∧ (shape0 a = 0 ∨ shape1 a = 0)) then raise ValueError
  else alloc (pad_edge p a).

(** [a * b] for arrays: shapes that differ cannot be multiplied
    (broadcasting of an axis of length 1 against a longer one, which
    numpy would do, does not occur: both operands are [kernel_size]
    squares whenever the resized array has the guide's shape). *)
Definition np_mul (a b : ndarray) : M ndarray :=
  if decide (shape0 a = shape0 b ∧ shape1 a = shape1 b) then ret (mul2 a b)
  else raise ValueError.

Section JBU.

(** [cv2.resize(src, (width, height), interpolation=cv2.INTER_LINEAR)] is
    OpenCV's: a parameter of the development.  [None] stands for
    [cv2.error]. *)
Variable cv2_resize : ndarray → nat → nat → option ndarray.

Definition cv2_resize_call (src : loc) (width height : nat) : M loc :=
  a <- load src;;
  match cv2_resize a width height with
  | Some dst => alloc dst
  | None => raise Cv2Error
  end.

(** Line 34: [int(3 * sigma_spatial) | 1]. *)
Definition kernel_size (sigma_spatial : R) : Z :=
  Z.lor (py_int (3 * sigma_spatial)) 1.

(** Lines 40-41: the value written to [spatial_kernel[i, j]]. *)
Definition spatial_entry (sigma_spatial : R) (center : Z) (i j : nat) : M npfloat :=
  let diff := ((Z.of_nat i - center) ^ 2 + (Z.of_nat j - center) ^ 2)%Z in
  e <- py_truediv (IZR (- diff)) (2 * sigma_spatial ^ 2);;
  ret (Fin (exp e)).

(** Lines 34-44, "Create spatial Gaussian kernel" and "Normalize
    kernel": the reference of the kernel object. *)
Definition create_spatial_kernel (sigma_spatial : R) : M loc :=
  let kernel_size := kernel_size sigma_spatial in
  spatial_kernel <- np_zeros_square kernel_size;;
  let center := (kernel_size `div` 2)%Z in
  for_each (py_range 0 (Z.to_nat kernel_size)) (λ i,
    for_each (py_range 0 (Z.to_nat kernel_size)) (λ j,
      v <- spatial_entry sigma_spatial center i j;;
      setitem spatial_kernel i j v));;;
  k <- load spatial_kernel;;
  update spatial_kernel (λ a, div_scalar a (np_sum k));;;
  ret spatial_kernel.

(** Lines 61-62: the range kernel of a guide window around the centre
    value [c]. *)
Definition range_kernel (sigma_range : R) (guide_window : ndarray) (c : npfloat) : ndarray :=
  let range_diff := fmap (M := list) (fmap (M := list) (λ g, nf_sq (nf_sub g c))) guide_window in
  fmap (M := list) (fmap (M := list)
    (λ d, nf_exp (nf_div (nf_neg d) (Fin (2 * sigma_range ^ 2))))) range_diff.

(** Line 66: [combined_kernel /= combined_kernel.sum() + 1e-10]. *)
Definition renormalize (combined_kernel : ndarray) : ndarray :=
  div_scalar combined_kernel (nf_add (np_sum combined_kernel) (Fin eps)).

(** Lines 56-69: the body of the pixel loop, for the loop indices
    [(i, j)] into the padded arrays. *)
Definition pixel_body (spatial_kernel padded_guide padded_input result : loc)
    (pad_size : nat) (sigma_range : R) (i j : nat) : M unit :=
  pg <- load padded_guide;;
  pin <- load padded_input;;
  let guide_window := slice2 (i - pad_size) (i + pad_size + 1) (j - pad_size) (j + pad_size + 1) pg in
  let input_window := slice2 (i - pad_size) (i + pad_size + 1) (j - pad_size) (j + pad_size + 1) pin in
  c <- getitem pg i j;;
  let range_kernel := range_kernel sigma_range guide_window c in
  k <- load spatial_kernel;;
  combined_kernel <- np_mul k range_kernel;;
  let combined_kernel := renormalize combined_kernel in
  weighted <- np_mul input_window combined_kernel;;
  setitem result (i - pad_size) (j - pad_size) (np_sum weighted).

(** Lines 46-69, "Apply joint bilateral filter". *)
Definition apply_joint_bilateral_filter (spatial_kernel high_res_image upsampled : loc)
    (kernel_size : Z) (sigma_range : R) : M loc :=
  up <- load upsampled;;
  result <- alloc (np_zeros (shape0 up) (shape1 up));;
  let pad_size := Z.to_nat (kernel_size `div` 2) in
  high <- load high_res_image;;
  padded_guide <- np_pad_edge pad_size high;;
  padded_input <- np_pad_edge pad_size up;;
  pg <- load padded_guide;;
  for_each (py_range pad_size (shape0 pg - pad_size)) (λ i,
    for_each (py_range pad_size (shape1 pg - pad_size)) (λ j,
      pixel_body spatial_kernel padded_guide padded_input result pad_size sigma_range i j));;;
  ret result.

(** The function of [src/app.py], on references to the two input
    arrays. *)
Definition joint_bilateral_upsampling (low_res_solution high_res_image : loc)
    (sigma_spatial sigma_range : R) : M loc :=
  low <- load low_res_solution;;
  high <- load high_res_image;;
  factor <- py_floordiv (shape0 high) (shape0 low);;
  upsampled <- cv2_resize_call low_res_solution (shape1 high) (shape0 high);;
  spatial_kernel <- create_spatial_kernel sigma_spatial;;
  apply_joint_bilateral_filter spatial_kernel high_res_image upsampled
    (kernel_size sigma_spatial) sigma_range.

End JBU.

(** ** Real-valued counterparts

    On finite arrays the computation stays among the reals.  The
    definitions below state what the arrays of the function hold there. *)

Abbreviation rgrid := (list (list R)).

(** A real-valued grid as a [float64] array. *)
Definition fin_grid (a : rgrid) : ndarray :=
  fmap (M := list) (fmap (M := list) Fin) a.

Definition rsum (l : list R) : R := foldr Rplus 0%R l.
Definition rsum2 (a : rgrid) : R := rsum (concat a).

(** Entry [(i, j)] of a grid, 0 outside. *)
Definition at2 (a : rgrid) (i j : nat) : R := default 0%R (get2 a i j).

(** Side of the kernel, and [kernel_size // 2], as naturals. *)
Definition side (sigma_spatial : R) : nat := Z.to_nat (kernel_size sigma_spatial).
Definition radius (sigma_spatial : R) : nat :=
  Z.to_nat (kernel_size sigma_spatial `div` 2).

(** The exponential of line 41. *)
Definition gauss (sigma_spatial : R) (center : Z) (i j : nat) : R :=
  exp (IZR (- ((Z.of_nat i - center) ^ 2 + (Z.of_nat j - center) ^ 2))
       / (2 * sigma_spatial ^ 2)).

(** The kernel before and after line 44. *)
Definition gauss_kernel (sigma_spatial : R) : rgrid :=
  tabulate (side sigma_spatial) (side sigma_spatial)
    (gauss sigma_spatial (kernel_size sigma_spatial `div` 2)).

Definition spatial_weights (sigma_spatial : R) : rgrid :=
  fmap (M := list) (fmap (M := list)
    (λ x, (x / rsum2 (gauss_kernel sigma_spatial))%R)) (gauss_kernel sigma_spatial).

(** Index into an axis of length [len] that position [n] of the axis
    padded by [p] on both sides replicates. *)
Definition clamp (p len n : nat) : nat := (n - p) `min` (len - 1).

(** The window of radius [p] around [(i, j)] in a grid of shape [(h, w)],
    read with edge replication. *)
Definition window (p h w : nat) (a : rgrid) (i j : nat) : rgrid :=
  tabulate (2 * p + 1) (2 * p + 1)
    (λ u v, at2 a (clamp p h (i + u)) (clamp p w (j + v))).

(** An entry of the range kernel. *)
Definition range_weight (sigma_range g c : R) : R :=
  exp (- (g - c) ^ 2 / (2 * sigma_range ^ 2)).

(** Spatial times range weight at offset [(u, v)] of the window of pixel
    [(i, j)], before line 66. *)
Definition combined_weight (sigma_spatial sigma_range : R) (h w : nat)
    (guide : rgrid) (i j u v : nat) : R :=
  let p := radius sigma_spatial in
  (at2 (spatial_weights sigma_spatial) u v
   * range_weight sigma_range
       (at2 guide (clamp p h (i + u)) (clamp p w (j + v))) (at2 guide i j))%R.

(** The sum of line 66, without the [1e-10]. *)
Definition combined_sum (sigma_spatial sigma_range : R) (h w : nat)
    (guide : rgrid) (i j : nat) : R :=
  rsum2 (tabulate (side sigma_spatial) (side sigma_spatial)
           (combined_weight sigma_spatial sigma_range h w guide i j)).

(** The weight after line 66. *)
Definition final_weight (sigma_spatial sigma_range : R) (h w : nat)
    (guide : rgrid) (i j u v : nat) : R :=
  (combined_weight sigma_spatial sigma_range h w guide i j u v
   / (combined_sum sigma_spatial sigma_range h w guide i j + eps))%R.

(** The value of line 69. *)
Definition pixel_value (sigma_spatial sigma_range : R) (h w : nat)
    (guide initial : rgrid) (i j : nat) : R :=
  let p := radius sigma_spatial in
  rsum2 (tabulate (side sigma_spatial) (side sigma_spatial)
    (λ u v, (at2 initial (clamp p h (i + u)) (clamp p w (j + v))
             * final_weight sigma_spatial sigma_range h w guide i j u v)%R)).

(** The plain Gaussian blur of a grid at [(i, j)]: the window weighted by
    the spatial kernel alone. *)
Definition spatial_blur (sigma_spatial : R) (h w : nat) (initial : rgrid)
    (i j : nat) : R :=
  let p := radius sigma_spatial in
  rsum2 (tabulate (side sigma_spatial) (side sigma_spatial)
    (λ u v, (at2 initial (clamp p h (i + u)) (clamp p w (j + v))
             * at2 (spatial_weights sigma_spatial) u v)%R)).

(** The values that [pixel_body] computes at the loop indices [(i, j)],
    in terms of the padded arrays: [combined_kernel] after line 65, and
    the number written to the result at line 69. *)
Definition combined_at (k padded_guide : ndarray) (pad_size : nat)
    (sigma_range : R) (i j : nat) : ndarray :=
  let guide_window :=
    slice2 (i - pad_size) (i + pad_size + 1) (j - pad_size) (j + pad_size + 1) padded_guide in
  let c := default NaN (get2 padded_guide i j) in
  mul2 k (range_kernel sigma_range guide_window c).

Definition body_value (k padded_guide padded_input : ndarray) (pad_size : nat)
    (sigma_range : R) (i j : nat) : npfloat :=
  let input_window :=
    slice2 (i - pad_size) (i + pad_size + 1) (j - pad_size) (j + pad_size + 1) padded_input in
  let combined_kernel := renormalize (combined_at k padded_guide pad_size sigma_range i j) in
  np_sum (mul2 input_window combined_kernel).

(** A stand-in for [cv2.resize] in examples: nearest-neighbour sampling
    of the source at the requested size, [cv2.error] on an empty source
    or an empty size. *)
Definition resize_nearest (src : ndarray) (width height : nat) : option ndarray :=
  if decide (shape0 src = 0 ∨ shape1 src = 0 ∨ width = 0 ∨ height = 0) then None
  else Some (tabulate height width (λ i j,
         default (Fin 0) (get2 src ((i * shape0 src) `div` height)
                                   ((j * shape1 src) `div` width)))).

(** ** Calls on a valid pair of arrays *)

(** The call finds a coarse array [low] that is not empty and a guide
    [high] of shape [(h, w)] with no empty axis behind its two arguments,
    and [cv2.resize] gives the array [up] of that shape. *)
Definition valid_call (cv2_resize : ndarray → nat → nat → option ndarray)
    (s : store) (low_res_solution high_res_image : loc)
    (low high up : ndarray) (h w : nat) : Prop :=
  s !! low_res_solution = Some low ∧ s !! high_res_image = Some high
  ∧ shape0 low ≠ 0 ∧ cv2_resize low w h = Some up
  ∧ rect h w high ∧ rect h w up ∧ 0 < h ∧ 0 < w.

(** Example inputs: a 2 by 2 coarse array under a 4 by 4 guide with a
    vertical edge, and a 1 by 1 pair with a constant guide. *)
Definition ex_low : rgrid := [[0%R; 10%R]; [20%R; 30%R]].
Definition ex_guide : rgrid :=
  [[0%R; 0%R; 100%R; 100%R]; [0%R; 0%R; 100%R; 100%R];
   [0%R; 0%R; 100%R; 100%R]; [0%R; 0%R; 100%R; 100%R]].
Definition ex_initial : rgrid :=
  [[0%R; 0%R; 10%R; 10%R]; [0%R; 0%R; 10%R; 10%R];
   [20%R; 20%R; 30%R; 30%R]; [20%R; 20%R; 30%R; 30%R]].
Definition ex_store : store :=
  <[0 := fin_grid ex_low]> (<[1 := fin_grid ex_guide]> ∅).

Definition ex1_low : rgrid := [[1%R]].
Definition ex1_guide : rgrid := [[0%R]].
Definition ex1_store : store :=
  <[0 := fin_grid ex1_low]> (<[1 := fin_grid ex1_guide]> ∅).

(** ** The frame of a computation *)

(** [agrees s0 s]: every object of [s0] is in [s] with the same
    contents. *)
Definition agrees (s0 s : store) : Prop :=
  ∀ l a, s0 !! l = Some a → s !! l = Some a.

(** [keeps s0 m Q]: started in a store that has the objects of [s0]
    unchanged, [m] ends (with a value or an exception) in such a store,
    and a value it returns satisfies [Q]. *)
Definition keeps {A} (s0 : store) (m : M A) (Q : A → Prop) : Prop :=
  ∀ s, agrees s0 s → agrees s0 (m s).1 ∧ ∀ a, (m s).2 = inr a → Q a.

(** ** Grids derived from grids *)

(** A grid with [c] added to every entry. *)
Definition shift_grid (c : R) (a : rgrid) : rgrid :=
  fmap (M := list) (fmap (M := list) (λ x, (x + c)%R)) a.

(** The grid [a * x + b * y], entry by entry. *)
Definition combine_grids (a b : R) (x y : rgrid) : rgrid :=
  zip_with (zip_with (λ u v, (a * u + b * v)%R)) x y.

(** ** The error metric of [main] (src/app.py, line 110)

    [main] decodes both images with [cv2.IMREAD_GRAYSCALE], so the guide
    is a [uint8] array; the result of the filter is created by
    [np.zeros_like] from the resized [uint8] coarse image, so it is a
    [uint8] array too.  On [uint8] arrays [-] and [** 2] wrap around
    modulo 256, and [np.mean] adds up in [float64]. *)

Abbreviation u8grid := (list (list Z)).

Definition wrap_uint8 (z : Z) : Z := (z `mod` 256)%Z.

(** [(result - high_res_img) ** 2]. *)
Definition squared_differences (result high_res_img : u8grid) : u8grid :=
  zip_with (zip_with (λ r h, wrap_uint8 (wrap_uint8 (r - h) ^ 2))) result high_res_img.

(** [np.mean] of a [uint8] array: nan for an empty one. *)
Definition np_mean (a : u8grid) : npfloat :=
  nf_div (Fin (IZR (foldr Z.add 0%Z (concat a))))
         (Fin (INR (length (concat a)))).

(** [np.mean((result - high_res_img) ** 2)]; arrays of different shapes
    are not subtracted (as for [np_mul], broadcasting does not occur
    here: the result has the guide's shape). *)
Definition mean_squared_error (result high_res_img : u8grid) : exn + npfloat :=
  if decide (shape0 result = shape0 high_res_img ∧ shape1 result = shape1 high_res_img)
  then inr (np_mean (squared_differences result high_res_img))
  else inl ValueError.

(** ** [downscale_image] (src/downscale.py): the new size and the
    default output path

    Paths are lists of characters; [os.path] is [posixpath]. *)

Abbreviation path := (list Ascii.ascii).

Definition sep : Ascii.ascii := "/"%char.

(** Lines 32-33: [(width // 2, height // 2)]. *)
Definition new_size (width height : nat) : nat * nat :=
  (width `div` 2, height `div` 2).

(** [p.rfind('/') + 1]: the index after the last separator, 0 without
    one. *)
Fixpoint rfind_sep_succ (p : path) : nat :=
  match p with
  | [] => 0
  | c :: rest =>
      match rfind_sep_succ rest with
      | 0 => if decide (c = sep) then 1 else 0
      | S k => S (S k)
      end
  end.

(** [p.rstrip('/')]. *)
Fixpoint rstrip_sep (p : path) : path :=
  match p with
  | [] => []
  | c :: rest =>
      match rstrip_sep rest with
      | [] => if decide (c = sep) then [] else [c]
      | r => c :: r
      end
  end.

(** [os.path.basename(p)]. *)
Definition basename (p : path) : path := drop (rfind_sep_succ p) p.

(** [os.path.dirname(p)]: the head up to the last separator, without
    its trailing separators unless it has nothing else. *)
Definition dirname (p : path) : path :=
  let head := take (rfind_sep_succ p) p in
  if decide (head ≠ [] ∧ head ≠ replicate (length head) sep)
  then rstrip_sep head else head.

(** [os.path.join(a, b)]. *)
Definition path_join (a b : path) : path :=
  if decide (head b = Some sep) then b
  else if decide (a = [] ∨ last a = Some sep) then a ++ b
  else a ++ sep :: b.

(** The literal ['downscaled_']. *)
Definition downscaled_prefix : path := String.list_ascii_of_string "downscaled_".

(** Lines 43-45: the output path when [output_path] is [None]. *)
Definition default_output_path (image_path : path) : path :=
  let filename := basename image_path in
  let dirname := dirname image_path in
  path_join dirname (downscaled_prefix ++ filename).

(** ** Further example inputs *)

Definition ex_empty_store : store :=
  <[0 := []]> (<[1 := fin_grid ex_guide]> ∅).

Definition ex_shifted_store : store :=
  <[0 := fin_grid ex_low]> (<[1 := fin_grid (shift_grid 5 ex_guide)]> ∅).


(** A constant 4 by 4 guide over the coarse array [ex_low]. *)
Definition ex_const_guide : rgrid :=
  [[50%R; 50%R; 50%R; 50%R]; [50%R; 50%R; 50%R; 50%R];
   [50%R; 50%R; 50%R; 50%R]; [50%R; 50%R; 50%R; 50%R]].
Definition ex_const_store : store :=
  <[0 := fin_grid ex_low]> (<[1 := fin_grid ex_const_guide]> ∅).

(** A second coarse array under the guide [ex_guide], and the
    combination [3 * ex_low + 4 * ex2_low]. *)
Definition ex2_low : rgrid := [[5%R; 1%R]; [2%R; 8%R]].
Definition ex2_initial : rgrid :=
  [[5%R; 5%R; 1%R; 1%R]; [5%R; 5%R; 1%R; 1%R];
   [2%R; 2%R; 8%R; 8%R]; [2%R; 2%R; 8%R; 8%R]].
Definition ex2_store : store :=
  <[0 := fin_grid ex2_low]> (<[1 := fin_grid ex_guide]> ∅).
Definition ex3_store : store :=
  <[0 := fin_grid (combine_grids 3 4 ex_low ex2_low)]>
    (<[1 := fin_grid ex_guide]> ∅).

Definition ex_u8_result : u8grid := [[16; 32]; [240; 3]]%Z.
Definition ex_u8_guide : u8grid := [[0; 0]; [0; 3]]%Z.

(** * Lemmas *)

(** ** Arrays as lists of rows *)

Section Arrays.
Context {A : Type}.
Implicit Types (a : list (list A)) (f : nat → nat → A).

Lemma length_tabulate h w f : length (tabulate h w f) = h.
Proof. unfold tabulate. by rewrite length_fmap, length_seq. Qed.

Lemma lookup_tabulate h w f i :
  i < h → tabulate h w f !! i = Some (f i <$> seq 0 w).
Proof.
  intros Hi. unfold tabulate.
  by rewrite list_lookup_fmap, lookup_seq_lt.
Qed.

Lemma get2_tabulate h w f i j :
  i < h → j < w → get2 (tabulate h w f) i j = Some (f i j).
Proof.
  intros Hi Hj. unfold get2.
  rewrite lookup_tabulate by done. simpl.
  by rewrite list_lookup_fmap, lookup_seq_lt.
Qed.

Lemma rect_tabulate h w f : rect h w (tabulate h w f).
Proof.
  split; [apply length_tabulate|].
  unfold tabulate. apply Forall_fmap, Forall_forall. intros i _. simpl.
  by rewrite length_fmap, length_seq.
Qed.

Lemma rect_lookup h w a i row : rect h w a → a !! i = Some row → length row = w.
Proof.
  intros [_ Hall] Hi. rewrite Forall_forall in Hall.
  apply Hall. eapply list_elem_of_lookup_2, Hi.
Qed.

Lemma rect_shape0 h w a : rect h w a → shape0 a = h.
Proof. by intros [? _]. Qed.

Lemma rect_shape1 h w a : rect h w a → 0 < h → shape1 a = w.
Proof.
  intros [Hlen Hall] Hh. destruct a as [|row a]; simpl in *; [lia|].
  by inversion Hall.
Qed.

Lemma get2_is_Some h w a i j : rect h w a → i < h → j < w → is_Some (get2 a i j).
Proof.
  intros Hr Hi Hj. unfold get2.
  destruct (lookup_lt_is_Some_2 a i) as [row Hrow]; [destruct Hr; lia|].
  rewrite Hrow. simpl. apply lookup_lt_is_Some_2.
  by rewrite (rect_lookup _ _ _ _ _ Hr Hrow).
Qed.

(** An array is the table of its entries. *)
Lemma tabulate_ext h w a f :
  rect h w a →
  (∀ i j, i < h → j < w → get2 a i j = Some (f i j)) →
  a = tabulate h w f.
Proof.
  intros Hr Hget. apply list_eq. intros i.
  destruct (decide (i < h)) as [Hi|Hi].
  - rewrite lookup_tabulate by done.
    destruct (lookup_lt_is_Some_2 a i) as [row Hrow]; [destruct Hr; lia|].
    rewrite Hrow. f_equal. apply list_eq. intros j.
    pose proof (rect_lookup _ _ _ _ _ Hr Hrow) as Hlen.
    destruct (decide (j < w)) as [Hj|Hj].
    + rewrite list_lookup_fmap, lookup_seq_lt by done. simpl.
      specialize (Hget i j Hi Hj). unfold get2 in Hget.
      by rewrite Hrow in Hget.
    + rewrite !lookup_ge_None_2; [done| |lia].
      rewrite length_fmap, length_seq. lia.
  - rewrite !lookup_ge_None_2; [done| |destruct Hr; lia].
    rewrite length_tabulate. lia.
Qed.

Lemma tabulate_ext_fun h w f g :
  (∀ i j, i < h → j < w → f i j = g i j) → tabulate h w f = tabulate h w g.
Proof.
  intros Hfg. apply tabulate_ext; [apply rect_tabulate|].
  intros i j Hi Hj. rewrite get2_tabulate by done. f_equal. by apply Hfg.
Qed.

Lemma rect_replicate h w (x : A) : rect h w (replicate h (replicate w x)).
Proof.
  split; [by rewrite length_replicate|].
  apply Forall_replicate. by rewrite length_replicate.
Qed.

Lemma rect_set2 h w a i j v : rect h w a → rect h w (set2 a i j v).
Proof.
  intros [Hlen Hall]. unfold set2. split; [by rewrite length_alter|].
  apply Forall_alter; [done|]. intros row _ Hrow. by rewrite length_insert.
Qed.

Lemma rect_insert h w a i row :
  rect h w a → length row = w → rect h w (<[i := row]> a).
Proof.
  intros [Hlen Hall] Hrow. split; [by rewrite length_insert|].
  by apply Forall_insert.
Qed.

(** Filling a row from left to right. *)
Lemma foldl_insert_seq {B} (F : nat → B) p n (r : list B) :
  n ≤ length r →
  foldl (λ r j, <[j - p := F (j - p)]> r) r (seq p n)
  = (F <$> seq 0 n) ++ drop n r.
Proof.
  induction n as [|n IH]; intros Hn.
  - simpl. by rewrite drop_0.
  - rewrite !seq_S, foldl_snoc, fmap_snoc, IH by lia.
    replace (p + n - p) with n by lia. simpl.
    assert (length (F <$> seq 0 n) = n) as Hlen
      by by rewrite length_fmap, length_seq.
    rewrite insert_app_r_alt by lia. rewrite Hlen, Nat.sub_diag.
    destruct (drop n r) as [|x rest] eqn:Hdrop.
    + apply (f_equal length) in Hdrop. rewrite length_drop in Hdrop.
      simpl in Hdrop. lia.
    + simpl. rewrite <- (assoc_L (++)). simpl. do 2 f_equal.
      replace (S n) with (n + 1) by lia.
      by rewrite <- drop_drop, Hdrop.
Qed.

Lemma foldl_insert_seq_full {B} (F : nat → B) p n (r : list B) :
  length r = n →
  foldl (λ r j, <[j - p := F (j - p)]> r) r (seq p n) = F <$> seq 0 n.
Proof.
  intros Hn. rewrite foldl_insert_seq by lia.
  rewrite drop_ge by lia. by rewrite app_nil_r.
Qed.

(** Writing the cells of one row of an array from left to right. *)
Lemma foldl_set2_seq f h w p a i :
  rect h w a → i < h →
  foldl (λ a j, set2 a i (j - p) (f i (j - p))) a (seq p w)
  = <[i := f i <$> seq 0 w]> a.
Proof.
  intros Hr Hi.
  destruct (lookup_lt_is_Some_2 a i) as [row Hrow]; [destruct Hr; lia|].
  assert (∀ (xs : list nat) a,
    foldl (λ a j, set2 a i (j - p) (f i (j - p))) a xs
    = alter (λ r, foldl (λ r j, <[j - p := f i (j - p)]> r) r xs) i a) as Hgen.
  { induction xs as [|x xs IH]; intros a'; simpl.
    - by rewrite list_alter_id.
    - rewrite IH. unfold set2. by rewrite list_alter_alter_eq. }
  rewrite Hgen.
  apply list_eq. intros n. destruct (decide (n = i)) as [->|Hne].
  - rewrite list_lookup_alter_eq, Hrow. simpl.
    rewrite list_lookup_insert_eq by (by eapply lookup_lt_Some).
    f_equal. apply foldl_insert_seq_full.
    by apply (rect_lookup _ _ _ _ _ Hr Hrow).
  - by rewrite list_lookup_alter_ne, list_lookup_insert_ne.
Qed.

Lemma lookup_py_slice lo hi {B} (l : list B) n :
  n < hi - lo → py_slice lo hi l !! n = l !! (lo + n).
Proof.
  intros Hn. unfold py_slice. by rewrite lookup_take_lt, lookup_drop.
Qed.

Lemma length_py_slice lo hi {B} (l : list B) :
  hi ≤ length l → length (py_slice lo hi l) = hi - lo.
Proof. intros Hhi. unfold py_slice. rewrite length_take, length_drop. lia. Qed.

Lemma length_pad_edge_list p {B} (l : list B) :
  0 < length l → length (pad_edge_list p l) = length l + 2 * p.
Proof.
  destruct l as [|x l]; simpl; [lia|]. intros _.
  rewrite length_app, length_replicate. simpl.
  rewrite length_app, length_replicate. lia.
Qed.

Lemma lookup_pad_edge_list p {B} (l : list B) n :
  0 < length l → n < length l + 2 * p →
  pad_edge_list p l !! n = l !! clamp p (length l) n.
Proof.
  intros Hpos Hn. unfold clamp.
  destruct l as [|x l]; [simpl in Hpos; lia|].
  unfold pad_edge_list.
  destruct (decide (n < p)) as [Hlt|Hge].
  - rewrite lookup_app_l by (rewrite length_replicate; lia).
    rewrite lookup_replicate_2 by done.
    by replace ((n - p) `min` (length (x :: l) - 1)) with 0 by lia.
  - rewrite lookup_app_r by (rewrite length_replicate; lia).
    rewrite length_replicate.
    destruct (decide (n - p < length (x :: l))) as [Hin|Hout].
    + rewrite lookup_app_l by done. f_equal. lia.
    + rewrite lookup_app_r by lia.
      rewrite lookup_replicate_2 by lia.
      rewrite last_lookup.
      replace ((n - p) `min` (length (x :: l) - 1))
        with (pred (length (x :: l))) by lia.
      destruct (lookup_lt_is_Some_2 (x :: l) (pred (length (x :: l))))
        as [y Hy]; [simpl; lia|].
      by rewrite Hy.
Qed.

Lemma clamp_lt p len n : 0 < len → clamp p len n < len.
Proof. unfold clamp. lia. Qed.

Lemma rect_pad_edge p h w a :
  rect h w a → 0 < h → 0 < w → rect (h + 2 * p) (w + 2 * p) (pad_edge p a).
Proof.
  intros [Hlen Hall] Hh Hw. unfold pad_edge. split.
  - rewrite length_pad_edge_list; rewrite length_fmap; lia.
  - apply Forall_forall. intros row Hin.
    apply list_elem_of_lookup in Hin as [n Hn].
    assert (n < length (pad_edge_list p (pad_edge_list p <$> a))) as Hlt
      by by eapply lookup_lt_Some.
    rewrite length_pad_edge_list in Hlt by (rewrite length_fmap; lia).
    rewrite length_fmap in Hlt.
    rewrite lookup_pad_edge_list in Hn by (rewrite ?length_fmap; lia).
    rewrite list_lookup_fmap in Hn.
    destruct (a !! _) as [row'|] eqn:Hrow'; [|done].
    simpl in Hn. injection Hn as <-.
    rewrite Forall_forall in Hall.
    assert (length row' = w) as Hw'
      by (apply Hall; eapply list_elem_of_lookup_2, Hrow').
    rewrite length_pad_edge_list; lia.
Qed.

(** Reading the padded array is reading the array at clamped indices. *)
Lemma get2_pad_edge p h w a n m :
  rect h w a → 0 < h → 0 < w → n < h + 2 * p → m < w + 2 * p →
  get2 (pad_edge p a) n m = get2 a (clamp p h n) (clamp p w m).
Proof.
  intros Hr Hh Hw Hn Hm. unfold get2, pad_edge.
  pose proof Hr as [Hlen Hall].
  rewrite lookup_pad_edge_list by (rewrite ?length_fmap; lia).
  rewrite length_fmap, Hlen, list_lookup_fmap.
  destruct (a !! clamp p h n) as [row|] eqn:Hrow; [|done].
  simpl. pose proof (rect_lookup _ _ _ _ _ Hr Hrow) as Hlrow.
  rewrite lookup_pad_edge_list by lia. by rewrite Hlrow.
Qed.

Lemma rect_slice2 h w a r0 r1 c0 c1 :
  rect h w a → r1 ≤ h → c1 ≤ w → rect (r1 - r0) (c1 - c0) (slice2 r0 r1 c0 c1 a).
Proof.
  intros [Hlen Hall] Hr1 Hc1. unfold slice2. split.
  - rewrite length_fmap, length_py_slice; lia.
  - apply Forall_fmap, Forall_forall. intros row Hin. simpl.
    rewrite length_py_slice; [done|].
    unfold py_slice in Hin.
    eapply elem_of_sublist in Hin; [|apply sublist_take].
    eapply elem_of_sublist in Hin; [|apply sublist_drop].
    rewrite Forall_forall in Hall. by rewrite (Hall _ Hin).
Qed.

Lemma get2_slice2 a r0 r1 c0 c1 u v :
  u < r1 - r0 → v < c1 - c0 →
  get2 (slice2 r0 r1 c0 c1 a) u v = get2 a (r0 + u) (c0 + v).
Proof.
  intros Hu Hv. unfold get2, slice2.
  rewrite list_lookup_fmap, lookup_py_slice by done.
  destruct (a !! (r0 + u)) as [row|]; [|done]. simpl.
  by rewrite lookup_py_slice.
Qed.

End Arrays.

(** ** Running computations *)

Lemma bind_ok {A B} (m : M A) (k : A → M B) s s' a :
  m s = (s', inr a) → bind m k s = k a s'.
Proof. intros Hm. unfold bind. by rewrite Hm. Qed.

Lemma bind_raise {A B} (m : M A) (k : A → M B) s s' e :
  m s = (s', inl e) → bind m k s = (s', inl e).
Proof. intros Hm. unfold bind. by rewrite Hm. Qed.

Lemma load_ok (s : store) l a : s !! l = Some a → load l s = (s, inr a).
Proof. intros Hl. unfold load. by rewrite Hl. Qed.

Lemma update_ok (s : store) l a f :
  s !! l = Some a → update l f s = (<[l := f a]> s, inr tt).
Proof. intros Hl. unfold update. by rewrite Hl. Qed.

Lemma getitem_ok a i j v (s : store) :
  get2 a i j = Some v → getitem a i j s = (s, inr v).
Proof. intros Hg. unfold getitem. by rewrite Hg. Qed.

Lemma setitem_insert (s0 : store) l a i j v :
  is_Some (get2 a i j) →
  setitem l i j v (<[l := a]> s0) = (<[l := set2 a i j v]> s0, inr tt).
Proof.
  intros [x Hx]. unfold setitem.
  rewrite (bind_ok _ _ _ _ a) by (apply load_ok, lookup_insert_eq).
  rewrite Hx.
  rewrite (update_ok _ _ a) by apply lookup_insert_eq.
  by rewrite insert_insert_eq.
Qed.

(** A loop whose body rewrites one object of the store. *)
Lemma for_each_store (P : ndarray → Prop) (g : nat → ndarray → ndarray)
    l (s0 : store) xs body :
  (∀ x a, x ∈ xs → P a →
     body x (<[l := a]> s0) = (<[l := g x a]> s0, inr tt) ∧ P (g x a)) →
  ∀ a, P a →
    for_each xs body (<[l := a]> s0)
    = (<[l := foldl (λ a x, g x a) a xs]> s0, inr tt)
    ∧ P (foldl (λ a x, g x a) a xs).
Proof.
  induction xs as [|x xs IH]; intros Hbody a Ha; simpl; [done|].
  destruct (Hbody x a) as [Hrun HP]; [left|done|].
  rewrite (bind_ok _ _ _ _ _ Hrun).
  apply IH; [|done].
  intros y a' Hy Ha'. apply Hbody; [by right|done].
Qed.

(** Two nested loops that write every cell of an [h] by [w] array, the
    loop indices starting at [p]. *)
Lemma fill_loops l (s0 : store) h w p (f : nat → nat → npfloat)
    (body : nat → nat → M unit) a :
  rect h w a →
  (∀ i j a', i < h → j < w → rect h w a' →
     body (p + i) (p + j) (<[l := a']> s0)
     = (<[l := set2 a' i j (f i j)]> s0, inr tt)) →
  for_each (seq p h) (λ i, for_each (seq p w) (λ j, body i j)) (<[l := a]> s0)
  = (<[l := tabulate h w f]> s0, inr tt).
Proof.
  intros Ha Hbody.
  destruct (for_each_store (rect h w)
    (λ i a, <[i - p := f (i - p) <$> seq 0 w]> a) l s0 (seq p h)
    (λ i, for_each (seq p w) (λ j, body i j))) with (a := a) as [Hrun _];
    [|done|].
  - intros i a' Hi Ha'. apply elem_of_seq in Hi.
    destruct (for_each_store (rect h w)
      (λ j a, set2 a (i - p) (j - p) (f (i - p) (j - p))) l s0 (seq p w)
      (λ j, body i j)) with (a := a') as [Hrun _]; [|done|].
    + intros j a'' Hj Ha''. apply elem_of_seq in Hj.
      split; [|by apply rect_set2].
      replace i with (p + (i - p)) at 1 by lia.
      replace j with (p + (j - p)) at 1 by lia.
      apply Hbody; [lia|lia|done].
    + rewrite Hrun. rewrite (foldl_set2_seq f h w) by (done || lia).
      split; [done|]. apply rect_insert; [done|].
      by rewrite length_fmap, length_seq.
  - rewrite Hrun. do 2 f_equal.
    apply (foldl_insert_seq_full (λ i, f i <$> seq 0 w)). by destruct Ha.
Qed.

(** ** The size of the kernel *)

Ltac zdiv := Z.to_euclidean_division_equations; lia.

(** Setting the lowest bit: the next odd number from an even one, the
    number itself from an odd one. *)
Lemma lor_1_odd (n : Z) : Z.lor n 1 = (2 * (n `div` 2) + 1)%Z.
Proof.
  apply Z.bits_inj'. intros m Hm. rewrite Z.lor_spec.
  destruct (Z.eq_dec m 0%Z) as [->|Hne].
  - rewrite Z.testbit_odd_0. simpl. by rewrite orb_true_r.
  - replace m with (Z.succ (m - 1)) by lia.
    rewrite Z.testbit_odd_succ by lia.
    rewrite <- !Z.div2_bits by lia.
    replace (1 `div` 2)%Z with 0%Z by done.
    by rewrite Z.bits_0, orb_false_r.
Qed.

Lemma kernel_size_odd sigma_spatial : Z.odd (kernel_size sigma_spatial) = true.
Proof.
  unfold kernel_size. rewrite lor_1_odd.
  rewrite Z.add_comm, Z.odd_add_mul_2. done.
Qed.

Lemma kernel_size_div2 sigma_spatial :
  (kernel_size sigma_spatial `div` 2 = py_int (3 * sigma_spatial) `div` 2)%Z.
Proof.
  unfold kernel_size. rewrite lor_1_odd. zdiv.
Qed.

Lemma kernel_size_nonneg sigma_spatial :
  (0 ≤ py_int (3 * sigma_spatial))%Z ↔ (0 ≤ kernel_size sigma_spatial)%Z.
Proof.
  unfold kernel_size. rewrite lor_1_odd. zdiv.
Qed.

Lemma py_int_nonneg (x : R) : (0 <= x)%R → (0 ≤ py_int x)%Z.
Proof.
  intros Hx. unfold py_int. destruct (Rle_dec 0 x); [|done].
  by apply (Zfloor_lub 0).
Qed.

Lemma py_int_IZR (z : Z) : py_int (IZR z) = z.
Proof.
  unfold py_int. destruct (Rle_dec 0 (IZR z)).
  - apply ZfloorZ.
  - unfold Zceil. rewrite <- opp_IZR, ZfloorZ. lia.
Qed.

(** For a positive [sigma_spatial] the size is positive, and it is twice
    [kernel_size // 2] plus one. *)
Lemma side_radius sigma_spatial :
  (0 ≤ kernel_size sigma_spatial)%Z →
  side sigma_spatial = 2 * radius sigma_spatial + 1.
Proof.
  intros Hk. unfold side, radius.
  pose proof (kernel_size_odd sigma_spatial) as Hodd.
  rewrite Z.odd_spec in Hodd. destruct Hodd as [m Hm].
  rewrite Hm in *. zdiv.
Qed.

Lemma kernel_size_pos sigma_spatial :
  (0 < sigma_spatial)%R → (0 < kernel_size sigma_spatial)%Z.
Proof.
  intros Hs.
  assert (0 ≤ kernel_size sigma_spatial)%Z as Hk.
  { apply kernel_size_nonneg, py_int_nonneg. lra. }
  pose proof (kernel_size_odd sigma_spatial) as Hodd.
  rewrite Z.odd_spec in Hodd. destruct Hodd as [m Hm]. lia.
Qed.

(** ** Sums *)

Lemma rsum_app l1 l2 : rsum (l1 ++ l2) = (rsum l1 + rsum l2)%R.
Proof.
  unfold rsum. induction l1 as [|x l1 IH]; simpl; [lra|]. rewrite IH. lra.
Qed.

Lemma rsum2_cons row (a : rgrid) : rsum2 (row :: a) = (rsum row + rsum2 a)%R.
Proof. unfold rsum2. simpl. apply rsum_app. Qed.

Lemma rsum_scale (c : R) l : rsum ((λ x, x * c)%R <$> l) = (rsum l * c)%R.
Proof.
  unfold rsum. induction l as [|x l IH]; simpl; [lra|].
  unfold fmap in IH. rewrite IH. lra.
Qed.

Lemma rsum2_scale (c : R) (a : rgrid) :
  rsum2 (fmap (M := list) (fmap (M := list) (λ x, x * c)%R) a) = (rsum2 a * c)%R.
Proof.
  induction a as [|row a IH]; [unfold rsum2, rsum; simpl; lra|].
  rewrite fmap_cons, !rsum2_cons, IH, rsum_scale. lra.
Qed.

Lemma rsum_pos l : l ≠ [] → Forall (λ x, 0 < x)%R l → (0 < rsum l)%R.
Proof.
  intros Hne Hall. unfold rsum.
  induction Hall as [|x l Hx Hall IH]; [done|]. simpl.
  destruct l as [|y l]; [simpl; lra|].
  assert (0 < foldr Rplus 0 (y :: l))%R by by apply IH. lra.
Qed.



(** The sum of a table, by rows. *)
Lemma rsum2_tabulate h w (f : nat → nat → R) :
  rsum2 (tabulate h w f) = rsum ((λ i, rsum (f i <$> seq 0 w)) <$> seq 0 h).
Proof.
  unfold tabulate. induction (seq 0 h) as [|i l IH]; [done|].
  rewrite !fmap_cons, rsum2_cons, IH. done.
Qed.

Lemma rsum2_tabulate_pos h w (f : nat → nat → R) :
  0 < h → 0 < w → (∀ i j, i < h → j < w → (0 < f i j)%R) →
  (0 < rsum2 (tabulate h w f))%R.
Proof.
  intros Hh Hw Hf. rewrite rsum2_tabulate. apply rsum_pos.
  - destruct h; [lia|]. done.
  - apply Forall_fmap, Forall_forall. intros i Hi. simpl.
    apply elem_of_seq in Hi. apply rsum_pos.
    + destruct w; [lia|]. done.
    + apply Forall_fmap, Forall_forall. intros j Hj. simpl.
      apply elem_of_seq in Hj. apply Hf; lia.
Qed.

Lemma map_tabulate {A B} (g : A → B) h w (f : nat → nat → A) :
  fmap (M := list) (fmap (M := list) g) (tabulate h w f)
  = tabulate h w (λ i j, g (f i j)).
Proof.
  unfold tabulate. rewrite <- list_fmap_compose. apply list_fmap_ext.
  intros _ i _. simpl. by rewrite <- list_fmap_compose.
Qed.

Lemma zip_with_fmap_same {A B C D} (g : B → C → D) (f1 : A → B) (f2 : A → C) l :
  zip_with g (f1 <$> l) (f2 <$> l) = (λ x, g (f1 x) (f2 x)) <$> l.
Proof. induction l as [|x l IH]; [done|]. rewrite !fmap_cons. simpl. by rewrite IH. Qed.

Lemma zip_with_tabulate {A B C} (g : A → B → C) h w f1 f2 :
  zip_with (zip_with g) (tabulate h w f1) (tabulate h w f2)
  = tabulate h w (λ i j, g (f1 i j) (f2 i j)).
Proof.
  unfold tabulate. rewrite zip_with_fmap_same. apply list_fmap_ext.
  intros _ i _. simpl. by rewrite zip_with_fmap_same.
Qed.

Lemma rsum2_tabulate_scale h w (f : nat → nat → R) (c : R) :
  rsum2 (tabulate h w (λ i j, f i j * c)%R) = (rsum2 (tabulate h w f) * c)%R.
Proof.
  rewrite <- rsum2_scale. f_equal. by rewrite map_tabulate.
Qed.

(** ** Finite arrays *)

Lemma np_sum_fin (a : rgrid) : np_sum (fin_grid a) = Fin (rsum2 a).
Proof.
  unfold np_sum, rsum2, fin_grid.
  assert (∀ l : list R, foldr nf_add (Fin 0) (Fin <$> l) = Fin (rsum l)) as Hrow.
  { induction l as [|x l IH]; [done|]. rewrite fmap_cons. simpl.
    by rewrite IH. }
  rewrite <- Hrow. f_equal.
  induction a as [|row a IH]; [done|].
  rewrite fmap_cons. simpl. by rewrite fmap_app, IH.
Qed.

Lemma fin_grid_tabulate h w (f : nat → nat → R) :
  fin_grid (tabulate h w f) = tabulate h w (λ i j, Fin (f i j)).
Proof. apply map_tabulate. Qed.

Lemma rect_fin_grid h w (a : rgrid) : rect h w a → rect h w (fin_grid a).
Proof.
  intros [Hlen Hall]. unfold fin_grid. split; [by rewrite length_fmap|].
  apply Forall_fmap. eapply Forall_impl; [done|].
  intros row Hrow. simpl. by rewrite length_fmap.
Qed.

Lemma get2_fin_grid (a : rgrid) i j : get2 (fin_grid a) i j = Fin <$> get2 a i j.
Proof.
  unfold get2, fin_grid. rewrite list_lookup_fmap.
  destruct (a !! i) as [row|]; [|done]. simpl. by rewrite list_lookup_fmap.
Qed.

Lemma get2_at2 h w (a : rgrid) i j :
  rect h w a → i < h → j < w → get2 a i j = Some (at2 a i j).
Proof.
  intros Hr Hi Hj. unfold at2.
  by destruct (get2_is_Some h w a i j Hr Hi Hj) as [x ->].
Qed.

Lemma fin_grid_ext h w (a : rgrid) : rect h w a → a = tabulate h w (at2 a).
Proof.
  intros Hr. apply tabulate_ext; [done|].
  intros i j Hi Hj. by apply (get2_at2 h w).
Qed.

Lemma div_scalar_fin_tabulate h w (f : nat → nat → R) (c : R) :
  c ≠ 0%R →
  div_scalar (tabulate h w (λ i j, Fin (f i j))) (Fin c)
  = tabulate h w (λ i j, Fin (f i j / c)).
Proof.
  intros Hc. unfold div_scalar. rewrite map_tabulate.
  apply tabulate_ext_fun. intros i j _ _. simpl.
  by destruct (Req_dec_T c 0).
Qed.

(** ** The spatial kernel *)

Lemma gauss_pos sigma_spatial center i j : (0 < gauss sigma_spatial center i j)%R.
Proof. apply exp_pos. Qed.

Lemma side_pos sigma_spatial :
  (0 ≤ kernel_size sigma_spatial)%Z → 0 < side sigma_spatial.
Proof. intros Hk. rewrite side_radius by done. lia. Qed.

Lemma gauss_kernel_sum_pos sigma_spatial :
  (0 ≤ kernel_size sigma_spatial)%Z → (0 < rsum2 (gauss_kernel sigma_spatial))%R.
Proof.
  intros Hk. pose proof (side_pos _ Hk).
  apply rsum2_tabulate_pos; [done|done|]. intros. apply gauss_pos.
Qed.

Lemma spatial_weights_tabulate sigma_spatial :
  spatial_weights sigma_spatial
  = tabulate (side sigma_spatial) (side sigma_spatial)
      (λ i j, (gauss sigma_spatial (kernel_size sigma_spatial `div` 2) i j
               / rsum2 (gauss_kernel sigma_spatial))%R).
Proof. unfold spatial_weights, gauss_kernel at 2. by rewrite map_tabulate. Qed.

Lemma rect_spatial_weights sigma_spatial :
  rect (side sigma_spatial) (side sigma_spatial) (spatial_weights sigma_spatial).
Proof. rewrite spatial_weights_tabulate. apply rect_tabulate. Qed.

Lemma at2_tabulate h w (f : nat → nat → R) i j :
  i < h → j < w → at2 (tabulate h w f) i j = f i j.
Proof. intros Hi Hj. unfold at2. by rewrite get2_tabulate. Qed.

Lemma alloc_run (s : store) a :
  alloc a s = (<[fresh (dom s) := a]> s, inr (fresh (dom s))).
Proof. done. Qed.

Lemma fresh_lookup (s : store) : s !! fresh (dom s) = None.
Proof. apply not_elem_of_dom, is_fresh. Qed.

Lemma spatial_entry_run sigma_spatial center i j (s : store) :
  sigma_spatial ≠ 0%R →
  spatial_entry sigma_spatial center i j s
  = (s, inr (Fin (gauss sigma_spatial center i j))).
Proof.
  intros Hs. unfold spatial_entry, py_truediv.
  destruct (Req_dec_T (2 * sigma_spatial ^ 2) 0) as [Hz|Hnz]; [|done].
  exfalso. apply Hs. nra.
Qed.

(** Lines 34-44 run to the end when [sigma_spatial] is not zero and
    the size is not negative: one new object, the normalized Gaussian
    table. *)
Lemma create_spatial_kernel_run sigma_spatial (s : store) :
  sigma_spatial ≠ 0%R → (0 ≤ kernel_size sigma_spatial)%Z →
  create_spatial_kernel sigma_spatial s
  = (<[fresh (dom s) := fin_grid (spatial_weights sigma_spatial)]> s,
     inr (fresh (dom s))).
Proof.
  intros Hs Hk. unfold create_spatial_kernel, np_zeros_square.
  destruct (decide (kernel_size sigma_spatial < 0)%Z) as [?|_]; [lia|].
  rewrite (bind_ok _ _ _ _ _ (alloc_run _ _)).
  set (l := fresh (dom s)). fold (side sigma_spatial).
  set (n := side sigma_spatial).
  unfold py_range. rewrite Nat.sub_0_r.
  erewrite bind_ok; last first.
  { apply (fill_loops l s n n 0
      (λ i j, Fin (gauss sigma_spatial (kernel_size sigma_spatial `div` 2) i j))).
    - apply rect_replicate.
    - intros i j a' Hi Hj Ha'. simpl.
      rewrite (bind_ok _ _ _ _ _ (spatial_entry_run _ _ _ _ _ Hs)).
      apply setitem_insert. by apply (get2_is_Some n n). }
  erewrite bind_ok; last by apply load_ok, lookup_insert_eq.
  erewrite bind_ok; last by apply update_ok, lookup_insert_eq.
  unfold ret. rewrite insert_insert_eq. do 2 f_equal.
  rewrite <- fin_grid_tabulate. subst n.
  change (tabulate _ _ _) with (gauss_kernel sigma_spatial).
  rewrite np_sum_fin. unfold gauss_kernel at 1. rewrite fin_grid_tabulate.
  rewrite div_scalar_fin_tabulate.
  - by rewrite spatial_weights_tabulate, fin_grid_tabulate.
  - pose proof (gauss_kernel_sum_pos _ Hk). lra.
Qed.

(** ** The pixel loop *)

Lemma rect_fmap2 {A B} (g : A → B) h w (a : list (list A)) :
  rect h w a → rect h w (fmap (M := list) (fmap (M := list) g) a).
Proof.
  intros [Hlen Hall]. split; [by rewrite length_fmap|].
  apply Forall_fmap. eapply Forall_impl; [done|].
  intros row Hrow. simpl. by rewrite length_fmap.
Qed.

Lemma rect_zip_with2 {A B C} (g : A → B → C) h w a b :
  rect h w a → rect h w b → rect h w (zip_with (zip_with g) a b).
Proof.
  intros [Hla Ha] [Hlb Hb]. split; [rewrite length_zip_with; lia|].
  apply Forall_forall. intros row Hin.
  apply list_elem_of_lookup in Hin as [n Hn].
  apply lookup_zip_with_Some in Hn as (ra & rb & -> & Hra & Hrb).
  rewrite Forall_forall in Ha. rewrite Forall_forall in Hb.
  rewrite length_zip_with.
  rewrite (Ha ra) by (by eapply list_elem_of_lookup_2).
  rewrite (Hb rb) by (by eapply list_elem_of_lookup_2). lia.
Qed.

Lemma rect_range_kernel sigma_range h w a c :
  rect h w a → rect h w (range_kernel sigma_range a c).
Proof. intros Ha. unfold range_kernel. by do 2 apply rect_fmap2. Qed.

Lemma rect_window {A} p h w (a : list (list A)) i j :
  rect (h + 2 * p) (w + 2 * p) a → i < h → j < w →
  rect (2 * p + 1) (2 * p + 1)
    (slice2 (p + i - p) (p + i + p + 1) (p + j - p) (p + j + p + 1) a).
Proof.
  intros Ha Hi Hj.
  replace (2 * p + 1) with (p + i + p + 1 - (p + i - p)) at 1 by lia.
  replace (2 * p + 1) with (p + j + p + 1 - (p + j - p)) by lia.
  eapply rect_slice2; [done|lia|lia].
Qed.

Lemma np_mul_run h w a b (s : store) :
  rect h w a → rect h w b → 0 < h → np_mul a b s = (s, inr (mul2 a b)).
Proof.
  intros Ha Hb Hh. unfold np_mul.
  rewrite (rect_shape0 _ _ _ Ha), (rect_shape0 _ _ _ Hb).
  rewrite (rect_shape1 _ _ _ Ha Hh), (rect_shape1 _ _ _ Hb Hh).
  by destruct (decide (h = h ∧ w = w)) as [_|[]].
Qed.

(** One iteration of the pixel loop writes one cell of the result. *)
Lemma pixel_body_run (s0 : store) lk lpg lpin lres k pg pin a p h w sigma_range i j :
  lres ≠ lk → lres ≠ lpg → lres ≠ lpin →
  s0 !! lk = Some k → s0 !! lpg = Some pg → s0 !! lpin = Some pin →
  rect (2 * p + 1) (2 * p + 1) k →
  rect (h + 2 * p) (w + 2 * p) pg → rect (h + 2 * p) (w + 2 * p) pin →
  rect h w a → i < h → j < w →
  pixel_body lk lpg lpin lres p sigma_range (p + i) (p + j) (<[lres := a]> s0)
  = (<[lres := set2 a i j (body_value k pg pin p sigma_range (p + i) (p + j))]> s0,
     inr tt).
Proof.
  intros Hk Hpg Hpin Hlk Hlpg Hlpin Hrk Hrpg Hrpin Ha Hi Hj.
  unfold pixel_body, body_value, combined_at.
  erewrite bind_ok; last by (apply load_ok; rewrite lookup_insert_ne).
  erewrite bind_ok; last by (apply load_ok; rewrite lookup_insert_ne).
  destruct (get2_is_Some _ _ pg (p + i) (p + j) Hrpg) as [c Hc]; [lia|lia|].
  erewrite bind_ok; last by apply getitem_ok.
  erewrite bind_ok; last by (apply load_ok; rewrite lookup_insert_ne).
  rewrite Hc. simpl default.
  pose proof (rect_window p h w pg i j Hrpg Hi Hj) as Hgw.
  pose proof (rect_window p h w pin i j Hrpin Hi Hj) as Hiw.
  pose proof (rect_range_kernel sigma_range _ _ _ c Hgw) as Hrk'.
  erewrite bind_ok; last by (eapply np_mul_run; [done|done|lia]).
  erewrite bind_ok; last first.
  { eapply np_mul_run; [done| |lia].
    unfold renormalize. apply rect_fmap2. by apply rect_zip_with2. }
  set (v := np_sum _). clearbody v.
  replace (p + i - p) with i by lia.
  replace (p + j - p) with j by lia.
  apply setitem_insert. by apply (get2_is_Some h w).
Qed.

Lemma fresh_ne (s : store) l : is_Some (s !! l) → fresh (dom s) ≠ l.
Proof. intros [a Ha] <-. by rewrite fresh_lookup in Ha. Qed.

Lemma np_pad_edge_run h w a p (s : store) :
  rect h w a → 0 < h → 0 < w →
  np_pad_edge p a s = (<[fresh (dom s) := pad_edge p a]> s, inr (fresh (dom s))).
Proof.
  intros Ha Hh Hw. unfold np_pad_edge.
  rewrite (rect_shape0 _ _ _ Ha), (rect_shape1 _ _ _ Ha Hh).
  destruct (decide _) as [[_ [?|?]]|_]; [lia|lia|done].
Qed.

(** Lines 46-69 on arrays of one non-empty shape: the new result object
    holds [body_value] at every cell, and the objects that existed
    before are as they were. *)
Lemma apply_joint_bilateral_filter_run (s : store) lk lhigh lup k high up h w
    (ks : Z) sigma_range :
  let p := Z.to_nat (ks `div` 2) in
  s !! lk = Some k → s !! lhigh = Some high → s !! lup = Some up →
  rect (2 * p + 1) (2 * p + 1) k → rect h w high → rect h w up →
  0 < h → 0 < w →
  ∃ s' : store,
    apply_joint_bilateral_filter lk lhigh lup ks sigma_range s
    = (s', inr (fresh (dom s)))
    ∧ s' !! fresh (dom s)
      = Some (tabulate h w (λ i j,
          body_value k (pad_edge p high) (pad_edge p up) p sigma_range (p + i) (p + j)))
    ∧ ∀ l, is_Some (s !! l) → s' !! l = s !! l.
Proof.
  intros p Hlk Hlhigh Hlup Hrk Hrhigh Hrup Hh Hw.
  unfold apply_joint_bilateral_filter. fold p.
  set (lres := fresh (dom s)).
  assert (∀ l, is_Some (s !! l) → lres ≠ l) as Hres by apply fresh_ne.
  erewrite bind_ok; last by apply load_ok.
  rewrite (bind_ok _ _ _ _ _ (alloc_run _ _)). fold lres.
  rewrite (rect_shape0 _ _ _ Hrup), (rect_shape1 _ _ _ Hrup Hh).
  set (s1 := <[lres := np_zeros h w]> s).
  erewrite bind_ok; last by (apply load_ok; unfold s1; rewrite lookup_insert_ne; eauto).
  erewrite bind_ok; last by eapply np_pad_edge_run.
  set (lpg := fresh (dom s1)). set (s2 := <[lpg := pad_edge p high]> s1).
  erewrite bind_ok; last by eapply np_pad_edge_run.
  set (lpin := fresh (dom s2)). set (s3 := <[lpin := pad_edge p up]> s2).
  assert (∀ l, is_Some (s1 !! l) → lpg ≠ l) as Hpg by apply fresh_ne.
  assert (∀ l, is_Some (s2 !! l) → lpin ≠ l) as Hpin by apply fresh_ne.
  assert (lpg ≠ lres) as Hpgres by (apply Hpg; unfold s1; rewrite lookup_insert_eq; eauto).
  assert (lpin ≠ lpg) as Hpinpg by (apply Hpin; unfold s2; rewrite lookup_insert_eq; eauto).
  assert (lpin ≠ lres) as Hpinres.
  { apply Hpin. unfold s2, s1. rewrite lookup_insert_ne, lookup_insert_eq; eauto. }
  assert (∀ l, is_Some (s !! l) → lpg ≠ l ∧ lpin ≠ l) as Hold.
  { intros l Hl. pose proof (Hres l Hl). split.
    - apply Hpg. unfold s1. by rewrite lookup_insert_ne.
    - apply Hpin. unfold s2, s1. rewrite !lookup_insert_ne; [done|done|].
      apply Hpg. unfold s1. by rewrite lookup_insert_ne. }
  pose proof (rect_pad_edge p h w high Hrhigh Hh Hw) as Hrpg.
  pose proof (rect_pad_edge p h w up Hrup Hh Hw) as Hrpin.
  erewrite bind_ok; last first.
  { apply load_ok. unfold s3. rewrite lookup_insert_ne by done.
    unfold s2. apply lookup_insert_eq. }
  rewrite (rect_shape0 _ _ _ Hrpg), (rect_shape1 _ _ _ Hrpg) by lia.
  unfold py_range.
  replace (h + 2 * p - p - p) with h by lia.
  replace (w + 2 * p - p - p) with w by lia.
  set (s0 := <[lpin := pad_edge p up]> (<[lpg := pad_edge p high]> s)).
  assert (s3 = <[lres := np_zeros h w]> s0) as ->.
  { unfold s3, s2, s1, s0.
    rewrite (insert_insert_ne _ lpg lres) by done.
    by rewrite (insert_insert_ne _ lpin lres) by done. }
  destruct (Hold lk) as [? ?]; [eauto|].
  erewrite bind_ok; last first.
  { apply (fill_loops lres s0 h w p (λ i j,
      body_value k (pad_edge p high) (pad_edge p up) p sigma_range (p + i) (p + j))).
    - apply rect_replicate.
    - intros i j a' Hi Hj Ha'.
      apply (pixel_body_run s0 lk lpg lpin lres k _ _ a' p h w); try done.
      + apply Hres. eauto.
      + unfold s0. by rewrite !lookup_insert_ne.
      + unfold s0. by rewrite lookup_insert_ne, lookup_insert_eq.
      + unfold s0. by rewrite lookup_insert_eq. }
  eexists. split; [done|]. split; [by rewrite lookup_insert_eq|].
  intros l Hl. destruct (Hold l Hl) as [? ?]. pose proof (Hres l Hl).
  unfold s0. by rewrite !lookup_insert_ne.
Qed.

(** ** The pixel value on finite arrays *)

Lemma range_entry_fin (sigma_range g c : R) :
  sigma_range ≠ 0%R →
  nf_exp (nf_div (nf_neg (nf_sq (nf_sub (Fin g) (Fin c)))) (Fin (2 * sigma_range ^ 2)))
  = Fin (range_weight sigma_range g c).
Proof.
  intros Hs. unfold nf_sq, nf_sub, nf_neg, nf_add, nf_mul, nf_div.
  destruct (Req_dec_T (2 * sigma_range ^ 2) 0) as [Hz|_]; [exfalso; apply Hs; nra|].
  unfold range_weight, nf_exp.
  by replace ((g + - c) * (g + - c))%R with ((g - c) ^ 2)%R by ring.
Qed.

Lemma range_weight_pos sigma_range g c : (0 < range_weight sigma_range g c)%R.
Proof. apply exp_pos. Qed.

Lemma spatial_weight_pos sigma_spatial u v :
  (0 ≤ kernel_size sigma_spatial)%Z →
  u < side sigma_spatial → v < side sigma_spatial →
  (0 < at2 (spatial_weights sigma_spatial) u v)%R.
Proof.
  intros Hk Hu Hv. rewrite spatial_weights_tabulate, at2_tabulate by done.
  apply Rdiv_lt_0_compat; [apply gauss_pos|by apply gauss_kernel_sum_pos].
Qed.

Lemma combined_weight_pos sigma_spatial sigma_range h w guide i j u v :
  (0 ≤ kernel_size sigma_spatial)%Z →
  u < side sigma_spatial → v < side sigma_spatial →
  (0 < combined_weight sigma_spatial sigma_range h w guide i j u v)%R.
Proof.
  intros Hk Hu Hv. unfold combined_weight.
  apply Rmult_lt_0_compat; [by apply spatial_weight_pos|apply range_weight_pos].
Qed.

Lemma combined_sum_pos sigma_spatial sigma_range h w guide i j :
  (0 ≤ kernel_size sigma_spatial)%Z →
  (0 < combined_sum sigma_spatial sigma_range h w guide i j)%R.
Proof.
  intros Hk. pose proof (side_pos _ Hk). unfold combined_sum.
  apply rsum2_tabulate_pos; [done|done|].
  intros u v Hu Hv. by apply combined_weight_pos.
Qed.

Lemma eps_pos : (0 < eps)%R.
Proof. unfold eps. apply Rdiv_lt_0_compat; [lra|]. apply pow_lt. lra. Qed.

(** The window sliced from the padded array is the window read with
    clamped indices. *)
Lemma window_fin p h w (a : rgrid) i j :
  rect h w a → 0 < h → 0 < w → i < h → j < w →
  slice2 (p + i - p) (p + i + p + 1) (p + j - p) (p + j + p + 1)
    (pad_edge p (fin_grid a))
  = fin_grid (window p h w a i j).
Proof.
  intros Ha Hh Hw Hi Hj. unfold window. rewrite fin_grid_tabulate.
  pose proof (rect_fin_grid _ _ _ Ha) as Hfa.
  apply tabulate_ext.
  - apply (rect_window p h w); [by apply rect_pad_edge|done|done].
  - intros u v Hu Hv. rewrite get2_slice2 by lia.
    rewrite (get2_pad_edge p h w) by (done || lia).
    rewrite get2_fin_grid.
    replace (p + i - p + u) with (i + u) by lia.
    replace (p + j - p + v) with (j + v) by lia.
    rewrite (get2_at2 h w) by (done || by apply clamp_lt). done.
Qed.

Lemma centre_fin p h w (a : rgrid) i j :
  rect h w a → 0 < h → 0 < w → i < h → j < w →
  get2 (pad_edge p (fin_grid a)) (p + i) (p + j) = Some (Fin (at2 a i j)).
Proof.
  intros Ha Hh Hw Hi Hj.
  rewrite (get2_pad_edge p h w) by (by apply rect_fin_grid || lia).
  rewrite get2_fin_grid. unfold clamp.
  replace ((p + i - p) `min` (h - 1)) with i by lia.
  replace ((p + j - p) `min` (w - 1)) with j by lia.
  by rewrite (get2_at2 h w).
Qed.

Lemma range_kernel_fin sigma_range n m (f : nat → nat → R) c :
  sigma_range ≠ 0%R →
  range_kernel sigma_range (tabulate n m (λ u v, Fin (f u v))) (Fin c)
  = tabulate n m (λ u v, Fin (range_weight sigma_range (f u v) c)).
Proof.
  intros Hs. unfold range_kernel. rewrite !map_tabulate.
  apply tabulate_ext_fun. intros u v _ _. by apply range_entry_fin.
Qed.

(** Line 65 on finite arrays. *)
Lemma combined_kernel_fin sigma_spatial sigma_range h w (guide : rgrid) i j :
  sigma_range ≠ 0%R → (0 ≤ kernel_size sigma_spatial)%Z →
  mul2 (fin_grid (spatial_weights sigma_spatial))
    (range_kernel sigma_range
       (fin_grid (window (radius sigma_spatial) h w guide i j))
       (Fin (at2 guide i j)))
  = fin_grid (tabulate (side sigma_spatial) (side sigma_spatial)
      (combined_weight sigma_spatial sigma_range h w guide i j)).
Proof.
  intros Hsr Hk. unfold window.
  rewrite <- (side_radius _ Hk).
  set (n := side sigma_spatial).
  rewrite (fin_grid_ext n n (spatial_weights sigma_spatial))
    by apply rect_spatial_weights.
  rewrite !fin_grid_tabulate, range_kernel_fin by done.
  unfold mul2. by rewrite zip_with_tabulate.
Qed.

(** Lines 57-65 on finite arrays. *)
Lemma combined_at_fin sigma_spatial sigma_range h w (guide : rgrid) i j :
  let p := radius sigma_spatial in
  sigma_range ≠ 0%R → (0 ≤ kernel_size sigma_spatial)%Z →
  rect h w guide → 0 < h → 0 < w → i < h → j < w →
  combined_at (fin_grid (spatial_weights sigma_spatial))
    (pad_edge p (fin_grid guide)) p sigma_range (p + i) (p + j)
  = fin_grid (tabulate (side sigma_spatial) (side sigma_spatial)
      (combined_weight sigma_spatial sigma_range h w guide i j)).
Proof.
  intros p Hsr Hk Hg Hh Hw Hi Hj. unfold combined_at.
  rewrite (window_fin p h w) by done.
  rewrite (centre_fin p h w) by done. simpl default.
  by apply combined_kernel_fin.
Qed.

Lemma combined_sum_eps_pos sigma_spatial sigma_range h w guide i j :
  (0 ≤ kernel_size sigma_spatial)%Z →
  (0 < combined_sum sigma_spatial sigma_range h w guide i j + eps)%R.
Proof.
  intros Hk.
  pose proof (combined_sum_pos sigma_spatial sigma_range h w guide i j Hk).
  pose proof eps_pos. lra.
Qed.

(** Line 66 on finite arrays. *)
Lemma renormalize_fin sigma_spatial sigma_range h w (guide : rgrid) i j :
  (0 ≤ kernel_size sigma_spatial)%Z →
  renormalize (fin_grid (tabulate (side sigma_spatial) (side sigma_spatial)
                 (combined_weight sigma_spatial sigma_range h w guide i j)))
  = fin_grid (tabulate (side sigma_spatial) (side sigma_spatial)
                 (final_weight sigma_spatial sigma_range h w guide i j)).
Proof.
  intros Hk. unfold renormalize. rewrite np_sum_fin.
  change (rsum2 _) with (combined_sum sigma_spatial sigma_range h w guide i j).
  simpl nf_add. rewrite !fin_grid_tabulate, div_scalar_fin_tabulate; [done|].
  pose proof (combined_sum_eps_pos sigma_spatial sigma_range h w guide i j Hk).
  lra.
Qed.

(** On finite arrays and with a non-zero [sigma_range], an iteration of
    the pixel loop computes the real number [pixel_value]. *)
Lemma body_value_fin sigma_spatial sigma_range h w (guide initial : rgrid) i j :
  let p := radius sigma_spatial in
  sigma_range ≠ 0%R → (0 ≤ kernel_size sigma_spatial)%Z →
  rect h w guide → rect h w initial → 0 < h → 0 < w → i < h → j < w →
  body_value (fin_grid (spatial_weights sigma_spatial))
    (pad_edge p (fin_grid guide)) (pad_edge p (fin_grid initial))
    p sigma_range (p + i) (p + j)
  = Fin (pixel_value sigma_spatial sigma_range h w guide initial i j).
Proof.
  intros p Hsr Hk Hg Hin Hh Hw Hi Hj. unfold body_value.
  unfold p. rewrite (combined_at_fin _ _ h w) by done. fold p.
  rewrite renormalize_fin by done.
  rewrite (window_fin p h w) by done.
  unfold window, pixel_value. fold p.
  pose proof (side_radius _ Hk) as Hside. fold p in Hside. rewrite <- Hside.
  rewrite !fin_grid_tabulate. unfold mul2. rewrite zip_with_tabulate.
  by rewrite <- np_sum_fin, fin_grid_tabulate.
Qed.

(** ** Sums of weights *)

Lemma spatial_weights_sum sigma_spatial :
  (0 ≤ kernel_size sigma_spatial)%Z → rsum2 (spatial_weights sigma_spatial) = 1%R.
Proof.
  intros Hk. pose proof (gauss_kernel_sum_pos _ Hk) as Hpos.
  unfold spatial_weights.
  change (λ x : R, (x / rsum2 (gauss_kernel sigma_spatial))%R)
    with (λ x : R, (x * / rsum2 (gauss_kernel sigma_spatial))%R).
  rewrite rsum2_scale. field. lra.
Qed.

Lemma range_weight_same sigma_range g : range_weight sigma_range g g = 1%R.
Proof.
  unfold range_weight.
  replace (- (g - g) ^ 2 / (2 * sigma_range ^ 2))%R with 0%R
    by (unfold Rdiv; ring).
  apply exp_0.
Qed.

(** The renormalized weights of a pixel add up to [S / (S + 1e-10)] for
    the sum [S] of the combined weights. *)
Lemma final_weight_sum sigma_spatial sigma_range h w guide i j :
  rsum2 (tabulate (side sigma_spatial) (side sigma_spatial)
           (final_weight sigma_spatial sigma_range h w guide i j))
  = (combined_sum sigma_spatial sigma_range h w guide i j
     / (combined_sum sigma_spatial sigma_range h w guide i j + eps))%R.
Proof.
  unfold final_weight.
  change (λ u v : nat, (?f u v / ?c)%R) with (λ u v : nat, (f u v * / c)%R).
  by rewrite rsum2_tabulate_scale.
Qed.

(** When the guide is constant the combined weights are the spatial
    weights, and the value is the blur divided by [1 + 1e-10]. *)
Lemma combined_weight_constant sigma_spatial sigma_range h w (guide : rgrid) c i j u v :
  (∀ a b, a < h → b < w → at2 guide a b = c) →
  0 < h → 0 < w → i < h → j < w →
  combined_weight sigma_spatial sigma_range h w guide i j u v
  = at2 (spatial_weights sigma_spatial) u v.
Proof.
  intros Hc Hh Hw Hi Hj. unfold combined_weight.
  rewrite !Hc by (done || by apply clamp_lt).
  rewrite range_weight_same. lra.
Qed.

Lemma combined_sum_constant sigma_spatial sigma_range h w (guide : rgrid) c i j :
  (0 ≤ kernel_size sigma_spatial)%Z →
  (∀ a b, a < h → b < w → at2 guide a b = c) →
  0 < h → 0 < w → i < h → j < w →
  combined_sum sigma_spatial sigma_range h w guide i j = 1%R.
Proof.
  intros Hk Hc Hh Hw Hi Hj. unfold combined_sum.
  rewrite (tabulate_ext_fun _ _ _ (at2 (spatial_weights sigma_spatial))).
  - rewrite <- fin_grid_ext by apply rect_spatial_weights.
    by apply spatial_weights_sum.
  - intros u v _ _. by apply (combined_weight_constant _ _ _ _ _ c).
Qed.

Lemma pixel_value_constant sigma_spatial sigma_range h w (guide initial : rgrid) c i j :
  (0 ≤ kernel_size sigma_spatial)%Z →
  (∀ a b, a < h → b < w → at2 guide a b = c) →
  0 < h → 0 < w → i < h → j < w →
  pixel_value sigma_spatial sigma_range h w guide initial i j
  = (spatial_blur sigma_spatial h w initial i j / (1 + eps))%R.
Proof.
  intros Hk Hc Hh Hw Hi Hj. unfold pixel_value, spatial_blur, Rdiv.
  rewrite <- rsum2_tabulate_scale. f_equal.
  apply tabulate_ext_fun. intros u v _ _. unfold final_weight.
  rewrite (combined_sum_constant _ _ _ _ _ c) by done.
  rewrite (combined_weight_constant _ _ _ _ _ c) by done.
  unfold Rdiv. ring.
Qed.

(** ** A kernel of one entry *)

Lemma kernel_size_small sigma_spatial :
  (-1 < 3 * sigma_spatial < 2)%R → kernel_size sigma_spatial = 1%Z.
Proof.
  intros [Hlo Hhi]. unfold kernel_size, py_int.
  destruct (Rle_dec 0 (3 * sigma_spatial)) as [Hpos|Hneg].
  - destruct (Rlt_dec (3 * sigma_spatial) 1) as [Hlt|Hge].
    + by rewrite (Zfloor_eq 0) by (simpl; lra).
    + by rewrite (Zfloor_eq 1) by (simpl; lra).
  - by rewrite (Zceil_eq 0) by (simpl; lra).
Qed.

Lemma tabulate_1_1 {A} (f : nat → nat → A) : tabulate 1 1 f = [[f 0 0]].
Proof. done. Qed.

Lemma spatial_weights_single sigma_spatial :
  kernel_size sigma_spatial = 1%Z → spatial_weights sigma_spatial = [[1%R]].
Proof.
  intros Hk.
  assert (0 ≤ kernel_size sigma_spatial)%Z as Hk0 by lia.
  pose proof (spatial_weights_sum _ Hk0) as Hsum.
  rewrite (fin_grid_ext _ _ _ (rect_spatial_weights sigma_spatial)) in Hsum |- *.
  unfold side in *. rewrite Hk in *. simpl Z.to_nat in *.
  rewrite tabulate_1_1 in Hsum |- *.
  unfold rsum2, rsum in Hsum. simpl in Hsum. do 2 f_equal. lra.
Qed.

(** With a kernel of one entry the window is the pixel itself, and the
    value is the one of the initial estimate divided by [1 + 1e-10]. *)
Lemma pixel_value_single sigma_spatial sigma_range h w (guide initial : rgrid) i j :
  kernel_size sigma_spatial = 1%Z → i < h → j < w →
  pixel_value sigma_spatial sigma_range h w guide initial i j
  = (at2 initial i j / (1 + eps))%R.
Proof.
  intros Hk Hi Hj.
  unfold pixel_value, final_weight, combined_sum, combined_weight.
  rewrite (spatial_weights_single _ Hk).
  unfold side, radius. rewrite Hk.
  change (Z.to_nat (1 `div` 2)) with 0. change (Z.to_nat 1) with 1.
  rewrite !tabulate_1_1. unfold clamp, rsum2, rsum. simpl concat. simpl foldr.
  replace ((i + 0 - 0) `min` (h - 1)) with i by lia.
  replace ((j + 0 - 0) `min` (w - 1)) with j by lia.
  rewrite range_weight_same.
  change (at2 [[1%R]] 0 0) with 1%R.
  pose proof eps_pos. field. lra.
Qed.

(** ** The whole function *)

Section Run.
Variable cv2_resize : ndarray → nat → nat → option ndarray.

(** On a non-empty coarse array, a guide of shape [(h, w)] that is not
    empty and a resized array of that shape, with [sigma_spatial] not
    zero and a kernel size that is not negative, the call returns a new
    object that holds [body_value] at every cell. *)
Lemma joint_bilateral_upsampling_run (s : store) llow lhigh low high up h w
    sigma_spatial sigma_range :
  let p := radius sigma_spatial in
  s !! llow = Some low → s !! lhigh = Some high →
  shape0 low ≠ 0 →
  cv2_resize low w h = Some up →
  rect h w high → rect h w up → 0 < h → 0 < w →
  sigma_spatial ≠ 0%R → (0 ≤ kernel_size sigma_spatial)%Z →
  ∃ (s' : store) (lres : loc),
    joint_bilateral_upsampling cv2_resize llow lhigh sigma_spatial sigma_range s
    = (s', inr lres)
    ∧ s !! lres = None
    ∧ s' !! lres
      = Some (tabulate h w (λ i j,
          body_value (fin_grid (spatial_weights sigma_spatial))
            (pad_edge p high) (pad_edge p up) p sigma_range (p + i) (p + j)))
    ∧ ∀ l, is_Some (s !! l) → s' !! l = s !! l.
Proof.
  intros p Hllow Hlhigh Hlow Hresize Hrhigh Hrup Hh Hw Hss Hk.
  unfold joint_bilateral_upsampling.
  erewrite bind_ok; last by apply load_ok.
  erewrite bind_ok; last by apply load_ok.
  unfold py_floordiv at 1. destruct (decide (shape0 low = 0)) as [?|_]; [done|].
  erewrite bind_ok; last done.
  rewrite (rect_shape0 _ _ _ Hrhigh), (rect_shape1 _ _ _ Hrhigh Hh).
  unfold cv2_resize_call.
  erewrite bind_ok; last first.
  { erewrite bind_ok; last by apply load_ok. rewrite Hresize. apply alloc_run. }
  set (lup := fresh (dom s)). set (s1 := <[lup := up]> s).
  rewrite (bind_ok _ _ _ _ _ (create_spatial_kernel_run _ _ Hss Hk)).
  set (lk := fresh (dom s1)).
  set (s2 := <[lk := fin_grid (spatial_weights sigma_spatial)]> s1).
  assert (∀ l, is_Some (s !! l) → lup ≠ l) as Hup by apply fresh_ne.
  assert (∀ l, is_Some (s1 !! l) → lk ≠ l) as Hlk by apply fresh_ne.
  assert (∀ l, is_Some (s !! l) → s2 !! l = s !! l) as Hold.
  { intros l Hl. pose proof (Hup l Hl). unfold s2, s1.
    rewrite !lookup_insert_ne; [done|done|].
    apply Hlk. unfold s1. by rewrite lookup_insert_ne. }
  destruct (apply_joint_bilateral_filter_run s2 lk lhigh lup
    (fin_grid (spatial_weights sigma_spatial)) high up h w
    (kernel_size sigma_spatial) sigma_range) as (s' & Hrun & Hres & Hframe);
    try done.
  - unfold s2. apply lookup_insert_eq.
  - rewrite Hold by eauto. done.
  - unfold s2, s1. rewrite lookup_insert_ne, lookup_insert_eq; [done|].
    apply Hlk. unfold s1. rewrite lookup_insert_eq. eauto.
  - fold (radius sigma_spatial). rewrite <- side_radius by done.
    apply rect_fin_grid, rect_spatial_weights.
  - exists s', (fresh (dom s2)). split; [done|]. split; [|split; [done|]].
    + destruct (s !! fresh (dom s2)) as [a|] eqn:Hl; [|done].
      pose proof (Hold (fresh (dom s2)) ltac:(eauto)) as Heq.
      rewrite fresh_lookup, Hl in Heq. done.
    + intros l Hl. rewrite Hframe by (rewrite Hold; done). by apply Hold.
Qed.

End Run.

(** ** What a computation leaves alone *)

Section Frame.
Variable s0 : store.


Lemma keeps_pure {A} (m : M A) : (∀ s, (m s).1 = s) → keeps s0 m (λ _, True).
Proof. intros Hm s Hs. by rewrite Hm. Qed.

Lemma keeps_ret {A} (a : A) (Q : A → Prop) : Q a → keeps s0 (ret a) Q.
Proof. intros Ha s Hs. split; [done|]. intros a' [= <-]. done. Qed.

Lemma keeps_raise {A} e (Q : A → Prop) : keeps s0 (raise e) Q.
Proof. intros s Hs. split; [done|]. intros a' [=]. Qed.

Lemma keeps_bind {A B} (m : M A) (k : A → M B) Q Q' :
  keeps s0 m Q → (∀ a, Q a → keeps s0 (k a) Q') → keeps s0 (bind m k) Q'.
Proof.
  intros Hm Hk s Hs. destruct (Hm s Hs) as [Hag Hret]. unfold bind.
  destruct (m s) as [s1 [e|a]]; simpl in *.
  - split; [done|]. intros b [=].
  - apply Hk; [by apply Hret|done].
Qed.

Lemma keeps_load l : keeps s0 (load l) (λ _, True).
Proof. apply keeps_pure. intros s. unfold load. by destruct (s !! l). Qed.

Lemma keeps_getitem a i j : keeps s0 (getitem a i j) (λ _, True).
Proof. apply keeps_pure. intros s. unfold getitem. by destruct (get2 a i j). Qed.

Lemma keeps_np_mul a b : keeps s0 (np_mul a b) (λ _, True).
Proof. apply keeps_pure. intros s. unfold np_mul. by destruct (decide _). Qed.

Lemma keeps_py_floordiv a b : keeps s0 (py_floordiv a b) (λ _, True).
Proof. apply keeps_pure. intros s. unfold py_floordiv. by destruct (decide _). Qed.

Lemma keeps_py_truediv a b : keeps s0 (py_truediv a b) (λ _, True).
Proof. apply keeps_pure. intros s. unfold py_truediv. by destruct (Req_dec_T _ _). Qed.

(** A new object is none of the old ones. *)
Lemma keeps_alloc a : keeps s0 (alloc a) (λ l, s0 !! l = None).
Proof.
  intros s Hs. unfold alloc. simpl.
  assert (s0 !! fresh (dom s) = None) as Hnew.
  { destruct (s0 !! fresh (dom s)) as [b|] eqn:Hb; [|done].
    apply Hs in Hb. by rewrite fresh_lookup in Hb. }
  split; [|by intros l [= <-]].
  intros l b Hl. rewrite lookup_insert_ne; [by apply Hs|].
  intros <-. by rewrite Hnew in Hl.
Qed.

(** Writing to an object that is not an old one. *)
Lemma keeps_update l f : s0 !! l = None → keeps s0 (update l f) (λ _, True).
Proof.
  intros Hl s Hs. unfold update. split; [|done].
  destruct (s !! l) as [a|]; simpl; [|done].
  intros l' b Hl'. rewrite lookup_insert_ne; [by apply Hs|].
  intros <-. by rewrite Hl in Hl'.
Qed.

Lemma keeps_setitem l i j v : s0 !! l = None → keeps s0 (setitem l i j v) (λ _, True).
Proof.
  intros Hl. unfold setitem. eapply keeps_bind; [apply keeps_load|].
  intros a _. destruct (get2 a i j); [by apply keeps_update|apply keeps_raise].
Qed.

Lemma keeps_for_each xs body :
  (∀ x, keeps s0 (body x) (λ _, True)) → keeps s0 (for_each xs body) (λ _, True).
Proof.
  intros Hbody. induction xs as [|x xs IH]; simpl; [by apply keeps_ret|].
  eapply keeps_bind; [apply Hbody|]. intros _ _. apply IH.
Qed.

Lemma keeps_np_pad_edge p a : keeps s0 (np_pad_edge p a) (λ l, s0 !! l = None).
Proof.
  unfold np_pad_edge. destruct (decide _); [apply keeps_raise|apply keeps_alloc].
Qed.

Lemma keeps_np_zeros_square k : keeps s0 (np_zeros_square k) (λ l, s0 !! l = None).
Proof.
  unfold np_zeros_square. destruct (decide _); [apply keeps_raise|apply keeps_alloc].
Qed.

Lemma keeps_spatial_entry sigma_spatial center i j :
  keeps s0 (spatial_entry sigma_spatial center i j) (λ _, True).
Proof.
  unfold spatial_entry. eapply keeps_bind; [apply keeps_py_truediv|].
  intros e _. by apply keeps_ret.
Qed.

(** Lines 34-44 write to the kernel object only, which is new. *)
Lemma keeps_create_spatial_kernel sigma_spatial :
  keeps s0 (create_spatial_kernel sigma_spatial) (λ l, s0 !! l = None).
Proof.
  unfold create_spatial_kernel.
  eapply keeps_bind; [apply keeps_np_zeros_square|]. intros lk Hlk.
  eapply keeps_bind.
  { apply keeps_for_each. intros i. apply keeps_for_each. intros j.
    eapply keeps_bind; [apply keeps_spatial_entry|].
    intros v _. by apply keeps_setitem. }
  intros _ _. eapply keeps_bind; [apply keeps_load|]. intros k _.
  eapply keeps_bind; [by apply keeps_update|]. intros _ _.
  by apply keeps_ret.
Qed.

Lemma keeps_pixel_body lk lpg lpin lres p sigma_range i j :
  s0 !! lres = None →
  keeps s0 (pixel_body lk lpg lpin lres p sigma_range i j) (λ _, True).
Proof.
  intros Hres. unfold pixel_body.
  eapply keeps_bind; [apply keeps_load|]. intros pg _.
  eapply keeps_bind; [apply keeps_load|]. intros pin _.
  eapply keeps_bind; [apply keeps_getitem|]. intros c _.
  eapply keeps_bind; [apply keeps_load|]. intros k _.
  eapply keeps_bind; [apply keeps_np_mul|]. intros ck _.
  eapply keeps_bind; [apply keeps_np_mul|]. intros wk _.
  by apply keeps_setitem.
Qed.

(** Lines 46-69 write to the result object only, which is new. *)
Lemma keeps_apply_joint_bilateral_filter lk lhigh lup ks sigma_range :
  keeps s0 (apply_joint_bilateral_filter lk lhigh lup ks sigma_range)
    (λ l, s0 !! l = None).
Proof.
  unfold apply_joint_bilateral_filter.
  eapply keeps_bind; [apply keeps_load|]. intros up _.
  eapply keeps_bind; [apply keeps_alloc|]. intros lres Hres.
  eapply keeps_bind; [apply keeps_load|]. intros high _.
  eapply keeps_bind; [apply keeps_np_pad_edge|]. intros lpg _.
  eapply keeps_bind; [apply keeps_np_pad_edge|]. intros lpin _.
  eapply keeps_bind; [apply keeps_load|]. intros pg _.
  eapply keeps_bind.
  { apply keeps_for_each. intros i. apply keeps_for_each. intros j.
    by apply keeps_pixel_body. }
  intros _ _. by apply keeps_ret.
Qed.

Section FrameOfCall.
Variable cv2_resize : ndarray → nat → nat → option ndarray.

Lemma keeps_cv2_resize_call src w h :
  keeps s0 (cv2_resize_call cv2_resize src w h) (λ l, s0 !! l = None).
Proof.
  unfold cv2_resize_call. eapply keeps_bind; [apply keeps_load|]. intros a _.
  destruct (cv2_resize a w h); [apply keeps_alloc|apply keeps_raise].
Qed.

(** The call writes to objects it has created only, and returns one of
    them. *)
Lemma keeps_joint_bilateral_upsampling llow lhigh sigma_spatial sigma_range :
  keeps s0 (joint_bilateral_upsampling cv2_resize llow lhigh sigma_spatial sigma_range)
    (λ l, s0 !! l = None).
Proof.
  unfold joint_bilateral_upsampling.
  eapply keeps_bind; [apply keeps_load|]. intros low _.
  eapply keeps_bind; [apply keeps_load|]. intros high _.
  eapply keeps_bind; [apply keeps_py_floordiv|]. intros factor _.
  eapply keeps_bind; [apply keeps_cv2_resize_call|]. intros lup _.
  eapply keeps_bind; [apply keeps_create_spatial_kernel|]. intros lk _.
  apply keeps_apply_joint_bilateral_filter.
Qed.

End FrameOfCall.
End Frame.

(** ** Calls that raise while the kernel is created *)

Lemma create_spatial_kernel_zero (s : store) :
  create_spatial_kernel 0 s
  = (<[fresh (dom s) := np_zeros 1 1]> s, inl ZeroDivisionError).
Proof.
  unfold create_spatial_kernel.
  rewrite (kernel_size_small 0) by lra.
  unfold np_zeros_square.
  destruct (decide (1 < 0)%Z) as [?|_]; [lia|].
  rewrite (bind_ok _ _ _ _ _ (alloc_run _ _)).
  change (Z.to_nat 1) with 1. change (py_range 0 1) with [0]. simpl for_each.
  apply bind_raise. eapply bind_raise, bind_raise, bind_raise.
  unfold spatial_entry. apply bind_raise. unfold py_truediv.
  destruct (Req_dec_T (2 * 0 ^ 2) 0) as [_|Hne]; [done|]. exfalso. apply Hne. lra.
Qed.

Lemma kernel_size_negative sigma_spatial :
  (sigma_spatial <= -1 / 3)%R → (kernel_size sigma_spatial < 0)%Z.
Proof.
  intros Hs. unfold kernel_size, py_int.
  destruct (Rle_dec 0 (3 * sigma_spatial)) as [?|_]; [lra|].
  assert (Zceil (3 * sigma_spatial) ≤ -1)%Z as Hc.
  { rewrite <- (Zceil_eq (-1) (-1)) by (simpl; lra). apply Zceil_le. lra. }
  rewrite lor_1_odd. zdiv.
Qed.

Lemma create_spatial_kernel_negative sigma_spatial (s : store) :
  (sigma_spatial <= -1 / 3)%R →
  create_spatial_kernel sigma_spatial s = (s, inl ValueError).
Proof.
  intros Hs. pose proof (kernel_size_negative _ Hs).
  unfold create_spatial_kernel, np_zeros_square.
  by destruct (decide (kernel_size sigma_spatial < 0)%Z).
Qed.

Section Raise.
Variable cv2_resize : ndarray → nat → nat → option ndarray.

Lemma joint_bilateral_upsampling_kernel_raise (s s' : store) llow lhigh low high up
    h w sigma_spatial sigma_range e :
  valid_call cv2_resize s llow lhigh low high up h w →
  create_spatial_kernel sigma_spatial (<[fresh (dom s) := up]> s) = (s', inl e) →
  joint_bilateral_upsampling cv2_resize llow lhigh sigma_spatial sigma_range s
  = (s', inl e).
Proof.
  intros (Hllow & Hlhigh & Hlow & Hresize & Hrhigh & Hrup & Hh & Hw) Hraise.
  unfold joint_bilateral_upsampling.
  erewrite bind_ok; last by apply load_ok.
  erewrite bind_ok; last by apply load_ok.
  unfold py_floordiv at 1. destruct (decide (shape0 low = 0)) as [?|_]; [done|].
  erewrite bind_ok; last done.
  rewrite (rect_shape0 _ _ _ Hrhigh), (rect_shape1 _ _ _ Hrhigh Hh).
  unfold cv2_resize_call.
  erewrite bind_ok; last first.
  { erewrite bind_ok; last by apply load_ok. rewrite Hresize. apply alloc_run. }
  by apply bind_raise.
Qed.

(** The successful call, cell by cell. *)
Lemma joint_bilateral_upsampling_cells (s : store) llow lhigh low high up h w
    sigma_spatial sigma_range :
  let p := radius sigma_spatial in
  valid_call cv2_resize s llow lhigh low high up h w →
  sigma_spatial ≠ 0%R → (0 ≤ kernel_size sigma_spatial)%Z →
  ∃ (s' : store) (lres : loc) (out : ndarray),
    joint_bilateral_upsampling cv2_resize llow lhigh sigma_spatial sigma_range s
    = (s', inr lres)
    ∧ s' !! lres = Some out
    ∧ rect h w out
    ∧ ∀ i j, i < h → j < w →
        get2 out i j
        = Some (body_value (fin_grid (spatial_weights sigma_spatial))
                  (pad_edge p high) (pad_edge p up) p sigma_range (p + i) (p + j)).
Proof.
  intros p (Hllow & Hlhigh & Hlow & Hresize & Hrhigh & Hrup & Hh & Hw) Hss Hk.
  destruct (joint_bilateral_upsampling_run cv2_resize s llow lhigh low high up h w
    sigma_spatial sigma_range) as (s' & lres & Hrun & _ & Hout & _); try done.
  eexists s', lres, _. split; [done|]. split; [done|].
  split; [apply rect_tabulate|].
  intros i j Hi Hj. by rewrite get2_tabulate.
Qed.

Lemma rect_fin_grid_inv h w (a : rgrid) : rect h w (fin_grid a) → rect h w a.
Proof.
  intros [Hlen Hall]. unfold fin_grid in *. rewrite length_fmap in Hlen.
  split; [done|]. rewrite Forall_fmap in Hall.
  eapply Forall_impl; [done|]. intros row Hrow. simpl in Hrow.
  by rewrite length_fmap in Hrow.
Qed.

(** The successful call on finite arrays. *)
Lemma joint_bilateral_upsampling_fin (s : store) llow lhigh (low guide initial : rgrid)
    h w sigma_spatial sigma_range :
  valid_call cv2_resize s llow lhigh (fin_grid low) (fin_grid guide) (fin_grid initial) h w →
  sigma_spatial ≠ 0%R → (0 ≤ kernel_size sigma_spatial)%Z → sigma_range ≠ 0%R →
  ∃ (s' : store) (lres : loc) (out : ndarray),
    joint_bilateral_upsampling cv2_resize llow lhigh sigma_spatial sigma_range s
    = (s', inr lres)
    ∧ s' !! lres = Some out
    ∧ ∀ i j, i < h → j < w →
        get2 out i j
        = Some (Fin (pixel_value sigma_spatial sigma_range h w guide initial i j)).
Proof.
  intros Hvalid Hss Hk Hsr.
  destruct (joint_bilateral_upsampling_cells s llow lhigh _ _ _ h w
    sigma_spatial sigma_range Hvalid Hss Hk) as (s' & lres & out & Hrun & Hout & _ & Hcells).
  destruct Hvalid as (_ & _ & _ & _ & Hrhigh & Hrup & Hh & Hw).
  apply rect_fin_grid_inv in Hrhigh, Hrup.
  exists s', lres, out. split; [done|]. split; [done|].
  intros i j Hi Hj. rewrite Hcells by done.
  by rewrite (body_value_fin _ _ h w).
Qed.

End Raise.

(** ** The example inputs *)

Lemma ex_valid :
  valid_call resize_nearest ex_store 0 1
    (fin_grid ex_low) (fin_grid ex_guide) (fin_grid ex_initial) 4 4.
Proof.
  unfold valid_call. repeat split; try done; try lia.
  - repeat constructor.
  - repeat constructor.
Qed.

Lemma ex1_valid :
  valid_call resize_nearest ex1_store 0 1
    (fin_grid ex1_low) (fin_grid ex1_guide) (fin_grid ex1_low) 1 1.
Proof.
  unfold valid_call. repeat split; try done; try lia.
  - repeat constructor.
  - repeat constructor.
Qed.

Lemma kernel_size_half : kernel_size (1 / 2) = 1%Z.
Proof. apply kernel_size_small. lra. Qed.

Lemma kernel_size_one : kernel_size 1 = 3%Z.
Proof.
  unfold kernel_size. replace (3 * 1)%R with (IZR 3) by lra.
  by rewrite py_int_IZR.
Qed.

Lemma one_plus_eps_ne (x : R) : x ≠ 0%R → (x / (1 + eps))%R ≠ x.
Proof.
  intros Hx Heq. pose proof eps_pos as He.
  apply (Rmult_eq_compat_r (1 + eps)) in Heq.
  unfold Rdiv in Heq. rewrite Rmult_assoc, Rinv_l in Heq by lra.
  assert (x * eps = 0)%R as Hz by lra.
  apply Rmult_integral in Hz. destruct Hz; [done|lra].
Qed.

(** The 1 by 1 example with [sigma_spatial = 1/2]: the call returns, and
    the single cell holds [1 / (1 + 1e-10)]. *)
Lemma ex1_run sigma_range :
  sigma_range ≠ 0%R →
  ∃ (s' : store) (lres : loc) (out : ndarray),
    joint_bilateral_upsampling resize_nearest 0 1 (1 / 2) sigma_range ex1_store
    = (s', inr lres)
    ∧ s' !! lres = Some out
    ∧ get2 out 0 0 = Some (Fin (1 / (1 + eps))).
Proof.
  intros Hsr.
  destruct (joint_bilateral_upsampling_fin resize_nearest ex1_store 0 1
    ex1_low ex1_guide ex1_low 1 1 (1 / 2) sigma_range ex1_valid)
    as (s' & lres & out & Hrun & Hout & Hcells); [lra| |done|].
  { rewrite kernel_size_half. lia. }
  exists s', lres, out. split; [done|]. split; [done|].
  rewrite Hcells by lia.
  by rewrite pixel_value_single by (apply kernel_size_half || lia).
Qed.

(** The weights after line 66 add up to [S / (S + 1e-10)], which is
    less than 1. *)
Lemma renormalized_total sigma_spatial sigma_range h w (guide : rgrid) i j :
  let p := radius sigma_spatial in
  let total := combined_sum sigma_spatial sigma_range h w guide i j in
  sigma_range ≠ 0%R → (0 ≤ kernel_size sigma_spatial)%Z →
  rect h w guide → 0 < h → 0 < w → i < h → j < w →
  np_sum (renormalize
    (combined_at (fin_grid (spatial_weights sigma_spatial))
       (pad_edge p (fin_grid guide)) p sigma_range (p + i) (p + j)))
  = Fin (total / (total + eps))
  ∧ (0 < total / (total + eps) < 1)%R.
Proof.
  intros p total Hsr Hk Hg Hh Hw Hi Hj. unfold p.
  rewrite (combined_at_fin _ _ h w) by done.
  rewrite renormalize_fin by done. rewrite np_sum_fin, final_weight_sum.
  split; [done|].
  pose proof (combined_sum_pos sigma_spatial sigma_range h w guide i j Hk) as HS.
  pose proof eps_pos as He. fold total in HS |- *.
  split; [apply Rdiv_lt_0_compat; lra|].
  replace (total / (total + eps))%R with (1 - eps / (total + eps))%R by (field; lra).
  assert (0 < eps / (total + eps))%R by (apply Rdiv_lt_0_compat; lra). lra.
Qed.

Lemma rect_ex_guide : rect 4 4 ex_guide.
Proof. split; [done|]. repeat constructor. Qed.

(** ** The definitions on small inputs *)

Example kernel_size_default : kernel_size 5 = 15%Z.
Proof.
  unfold kernel_size. replace (3 * 5)%R with (IZR 15) by lra.
  by rewrite py_int_IZR.
Qed.

Example kernel_size_tenth : kernel_size (1 / 10) = 1%Z.
Proof. apply kernel_size_small. lra. Qed.

Example py_int_minus_half : py_int (-1 / 2) = 0%Z.
Proof.
  unfold py_int. destruct (Rle_dec 0 (-1 / 2)); [lra|].
  apply Zceil_eq. simpl. lra.
Qed.

Example pad_edge_list_3 : pad_edge_list 2 [1; 2; 3] = [1; 1; 1; 2; 3; 3; 3].
Proof. reflexivity. Qed.

Example py_slice_past_end : py_slice 3 7 [0; 1; 2; 3; 4] = [3; 4].
Proof. reflexivity. Qed.

Example pad_edge_2_2 :
  pad_edge 1 [[1; 2]; [3; 4]]
  = [[1; 1; 2; 2]; [1; 1; 2; 2]; [3; 3; 4; 4]; [3; 3; 4; 4]].
Proof. reflexivity. Qed.

Example corner_window :
  slice2 0 3 0 3 (pad_edge 1 [[1; 2]; [3; 4]]) = [[1; 1; 2]; [1; 1; 2]; [3; 3; 4]].
Proof. reflexivity. Qed.

Example get2_out_of_range : get2 [[1; 2]; [3; 4]] 2 0 = None.
Proof. reflexivity. Qed.

(** With [sigma_range = 0] numpy divides [-0.0] by [0.0] at the centre
    of the window: the range kernel holds nan there, and so does the
    pixel.  Nothing is raised. *)
Example ex1_sigma_range_zero :
  ∃ (s' : store) (lres : loc) (out : ndarray),
    joint_bilateral_upsampling resize_nearest 0 1 (1 / 2) 0 ex1_store
    = (s', inr lres)
    ∧ s' !! lres = Some out
    ∧ get2 out 0 0 = Some NaN.
Proof.
  destruct (joint_bilateral_upsampling_cells resize_nearest ex1_store 0 1
    _ _ _ 1 1 (1 / 2) 0 ex1_valid)
    as (s' & lres & out & Hrun & Hout & _ & Hcells); [lra| |].
  { rewrite kernel_size_half. lia. }
  exists s', lres, out. split; [done|]. split; [done|].
  rewrite Hcells by lia. f_equal.
  rewrite (spatial_weights_single _ kernel_size_half).
  unfold radius. rewrite kernel_size_half. change (Z.to_nat (1 `div` 2)) with 0.
  unfold body_value, combined_at, renormalize, range_kernel. simpl.
  unfold np_sum. simpl.
  destruct (Req_dec_T (2 * (0 * (0 * 1))) 0) as [_|Hne]; [|exfalso; apply Hne; lra].
  unfold signed_inf.
  destruct (Rlt_dec 0 (- ((0 + - 0) * (0 + - 0)))) as [?|_]; [lra|].
  destruct (Rlt_dec (- ((0 + - 0) * (0 + - 0))) 0) as [?|_]; [lra|].
  done.
Qed.

(** * The claims *)

Section Claims.
Variable cv2_resize : ndarray → nat → nat → option ndarray.

(** C1 (amended).  For every [sigma_spatial > 0], lines 34-44 build a
    square kernel of side [int(3 * sigma_spatial) | 1], the floor of
    [3 * sigma_spatial] with its lowest bit set.  The side is twice
    [floor(3 * sigma_spatial) // 2] plus one, and it is odd. *)
Theorem C1_kernel_side (sigma_spatial : R) (s : store) :
  (0 < sigma_spatial)%R →
  ∃ (s' : store) (l : loc) (k : ndarray),
    create_spatial_kernel sigma_spatial s = (s', inr l)
    ∧ s' !! l = Some k
    ∧ rect (side sigma_spatial) (side sigma_spatial) k
    ∧ Z.of_nat (side sigma_spatial) = Z.lor (Zfloor (3 * sigma_spatial)) 1
    ∧ side sigma_spatial = 2 * radius sigma_spatial + 1
    ∧ Z.of_nat (radius sigma_spatial) = (Zfloor (3 * sigma_spatial) `div` 2)%Z
    ∧ Nat.odd (side sigma_spatial) = true.
Proof.
  intros Hs.
  pose proof (kernel_size_pos _ Hs) as Hk.
  assert (py_int (3 * sigma_spatial) = Zfloor (3 * sigma_spatial)) as Hint.
  { unfold py_int. destruct (Rle_dec 0 (3 * sigma_spatial)); [done|lra]. }
  assert (0 ≤ Zfloor (3 * sigma_spatial))%Z as Hfl.
  { rewrite <- Hint. apply py_int_nonneg. lra. }
  exists (<[fresh (dom s) := fin_grid (spatial_weights sigma_spatial)]> s),
    (fresh (dom s)), (fin_grid (spatial_weights sigma_spatial)).
  split; [apply create_spatial_kernel_run; [lra|lia]|].
  split; [apply lookup_insert_eq|].
  split; [apply rect_fin_grid, rect_spatial_weights|].
  split.
  { unfold side. rewrite Z2Nat.id by lia. unfold kernel_size. by rewrite Hint. }
  split; [apply side_radius; lia|].
  split.
  - unfold radius. rewrite kernel_size_div2, Hint. zdiv.
  - rewrite side_radius by lia.
    rewrite Nat.add_comm, Nat.odd_add_mul_2. done.
Qed.

(** C2 (amended).  The function checks neither sigma.  On a valid pair
    of arrays: with [sigma_spatial = 0] the call raises
    [ZeroDivisionError], and with [sigma_spatial <= -1/3] it raises
    [ValueError]; both are raised by lines 34-44, before the pixel loop,
    and no array is returned.  With [-1/3 < sigma_spatial < 0] and any
    [sigma_range], and with [sigma_spatial > 0] and [sigma_range <= 0],
    nothing is raised and an array of the guide's shape is returned. *)
Theorem C2_nonpositive_sigma (s : store) llow lhigh low high up h w
    (sigma_spatial sigma_range : R) :
  valid_call cv2_resize s llow lhigh low high up h w →
  let call := joint_bilateral_upsampling cv2_resize llow lhigh
                sigma_spatial sigma_range s in
  (sigma_spatial = 0%R →
     (∀ s1, (create_spatial_kernel sigma_spatial s1).2 = inl ZeroDivisionError)
     ∧ call.2 = inl ZeroDivisionError)
  ∧ ((sigma_spatial <= -1 / 3)%R →
     (∀ s1, (create_spatial_kernel sigma_spatial s1).2 = inl ValueError)
     ∧ call.2 = inl ValueError)
  ∧ ((-1 / 3 < sigma_spatial < 0)%R ∨ (0 < sigma_spatial ∧ sigma_range <= 0)%R →
     ∃ (lres : loc) (out : ndarray),
       call.2 = inr lres ∧ call.1 !! lres = Some out ∧ rect h w out).
Proof.
  intros Hvalid call. split; [|split].
  - intros ->. split.
    + intros s1. by rewrite create_spatial_kernel_zero.
    + unfold call.
      by erewrite joint_bilateral_upsampling_kernel_raise
        by (done || apply create_spatial_kernel_zero).
  - intros Hs. split.
    + intros s1. by rewrite create_spatial_kernel_negative.
    + unfold call.
      by erewrite joint_bilateral_upsampling_kernel_raise
        by (done || by apply create_spatial_kernel_negative).
  - intros Hs.
    assert (sigma_spatial ≠ 0%R ∧ (0 ≤ kernel_size sigma_spatial)%Z) as [Hne Hk].
    { destruct Hs as [[Hlo Hhi]|[Hpos _]].
      - split; [lra|]. rewrite kernel_size_small by lra. lia.
      - split; [lra|]. pose proof (kernel_size_pos _ Hpos). lia. }
    destruct (joint_bilateral_upsampling_cells cv2_resize s llow lhigh low high up
      h w sigma_spatial sigma_range Hvalid Hne Hk)
      as (s' & lres & out & Hrun & Hout & Hrect & _).
    exists lres, out. unfold call. by rewrite Hrun.
Qed.

(** C3.  For positive sigmas and finite arrays, the call returns an
    array whose entry [(i, j)] is the weighted sum, over the window of
    the kernel's radius read with edge replication, of the initial
    estimate: the weight at an offset is the spatial kernel entry times
    [exp(-(guide_window[offset] - guide[i, j])^2 / (2 * sigma_range^2))],
    divided by the sum of these products over the window plus
    [1e-10]. *)
Theorem C3_pixel_weighted_sum (s : store) llow lhigh (low guide initial : rgrid)
    h w (sigma_spatial sigma_range : R) :
  valid_call cv2_resize s llow lhigh
    (fin_grid low) (fin_grid guide) (fin_grid initial) h w →
  (0 < sigma_spatial)%R → (0 < sigma_range)%R →
  ∃ (s' : store) (lres : loc) (out : ndarray),
    joint_bilateral_upsampling cv2_resize llow lhigh sigma_spatial sigma_range s
    = (s', inr lres)
    ∧ s' !! lres = Some out
    ∧ side sigma_spatial = 2 * radius sigma_spatial + 1
    ∧ ∀ i j, i < h → j < w →
        let p := radius sigma_spatial in
        let n := side sigma_spatial in
        let guide_window u v := at2 guide (clamp p h (i + u)) (clamp p w (j + v)) in
        let input_window u v := at2 initial (clamp p h (i + u)) (clamp p w (j + v)) in
        let weight u v :=
          (at2 (spatial_weights sigma_spatial) u v
           * exp (- (guide_window u v - at2 guide i j) ^ 2 / (2 * sigma_range ^ 2)))%R in
        let total := rsum2 (tabulate n n weight) in
        slice2 (p + i - p) (p + i + p + 1) (p + j - p) (p + j + p + 1)
          (pad_edge p (fin_grid guide))
        = tabulate n n (λ u v, Fin (guide_window u v))
        ∧ slice2 (p + i - p) (p + i + p + 1) (p + j - p) (p + j + p + 1)
            (pad_edge p (fin_grid initial))
          = tabulate n n (λ u v, Fin (input_window u v))
        ∧ get2 out i j
          = Some (Fin (rsum2 (tabulate n n
              (λ u v, (input_window u v * (weight u v / (total + eps)))%R)))).
Proof.
  intros Hvalid Hss Hsr.
  pose proof (kernel_size_pos _ Hss) as Hk.
  destruct (joint_bilateral_upsampling_fin cv2_resize s llow lhigh low guide initial
    h w sigma_spatial sigma_range Hvalid)
    as (s' & lres & out & Hrun & Hout & Hcells); [lra|lia|lra|].
  destruct Hvalid as (_ & _ & _ & _ & Hrhigh & Hrup & Hh & Hw).
  apply rect_fin_grid_inv in Hrhigh, Hrup.
  exists s', lres, out. split; [done|]. split; [done|].
  split; [apply side_radius; lia|].
  intros i j Hi Hj p n guide_window input_window weight total.
  rewrite !(window_fin p h w) by done. unfold window.
  rewrite !fin_grid_tabulate. unfold n. rewrite (side_radius sigma_spatial) by lia.
  split; [done|]. split; [done|].
  rewrite Hcells by done. unfold pixel_value.
  by rewrite (side_radius sigma_spatial) by lia.
Qed.

(** C4.  On a valid pair of arrays and with positive sigmas the call
    returns an array of the guide's shape. *)
Theorem C4_shape_preserved (s : store) llow lhigh low high up h w
    (sigma_spatial sigma_range : R) :
  valid_call cv2_resize s llow lhigh low high up h w →
  (0 < sigma_spatial)%R → (0 < sigma_range)%R →
  ∃ (s' : store) (lres : loc) (out : ndarray),
    joint_bilateral_upsampling cv2_resize llow lhigh sigma_spatial sigma_range s
    = (s', inr lres)
    ∧ s' !! lres = Some out
    ∧ rect h w out
    ∧ shape0 out = shape0 high ∧ shape1 out = shape1 high.
Proof.
  intros Hvalid Hss Hsr.
  pose proof (kernel_size_pos _ Hss) as Hk.
  destruct (joint_bilateral_upsampling_cells cv2_resize s llow lhigh low high up
    h w sigma_spatial sigma_range Hvalid)
    as (s' & lres & out & Hrun & Hout & Hrect & _); [lra|lia|].
  destruct Hvalid as (_ & _ & _ & _ & Hrhigh & _ & Hh & Hw).
  exists s', lres, out. split; [done|]. split; [done|]. split; [done|].
  rewrite (rect_shape0 _ _ _ Hrect), (rect_shape0 _ _ _ Hrhigh).
  by rewrite (rect_shape1 _ _ _ Hrect Hh), (rect_shape1 _ _ _ Hrhigh Hh).
Qed.

(** C5.  For every [sigma_spatial > 0] the kernel that lines 34-44 build
    has finite entries that are not negative, and its entries add up
    to 1. *)
Theorem C5_kernel_normalized (sigma_spatial : R) (s : store) :
  (0 < sigma_spatial)%R →
  ∃ (s' : store) (l : loc) (k : ndarray),
    create_spatial_kernel sigma_spatial s = (s', inr l)
    ∧ s' !! l = Some k
    ∧ (∀ u v x, get2 k u v = Some x → ∃ r : R, x = Fin r ∧ (0 <= r)%R)
    ∧ np_sum k = Fin 1.
Proof.
  intros Hs.
  pose proof (kernel_size_pos _ Hs) as Hk.
  exists (<[fresh (dom s) := fin_grid (spatial_weights sigma_spatial)]> s),
    (fresh (dom s)), (fin_grid (spatial_weights sigma_spatial)).
  split; [apply create_spatial_kernel_run; [lra|lia]|].
  split; [apply lookup_insert_eq|]. split.
  - intros u v x Hx. rewrite get2_fin_grid in Hx.
    destruct (get2 (spatial_weights sigma_spatial) u v) as [r|] eqn:Hr; [|done].
    injection Hx as <-. exists r. split; [done|].
    assert (u < side sigma_spatial ∧ v < side sigma_spatial) as [Hu Hv].
    { pose proof (rect_spatial_weights sigma_spatial) as Hrect.
      unfold get2 in Hr.
      destruct (spatial_weights sigma_spatial !! u) as [row|] eqn:Hrow; [|done].
      simpl in Hr. split.
      - apply lookup_lt_Some in Hrow. by destruct Hrect as [<- _].
      - apply lookup_lt_Some in Hr.
        by rewrite (rect_lookup _ _ _ _ _ Hrect Hrow) in Hr. }
    pose proof (spatial_weight_pos sigma_spatial u v ltac:(lia) Hu Hv) as Hpos.
    unfold at2 in Hpos. rewrite Hr in Hpos. simpl in Hpos. lra.
  - rewrite np_sum_fin. f_equal. apply spatial_weights_sum. lia.
Qed.

(** C6 (amended).  For positive sigmas and finite arrays, the weights
    that multiply the window of every output pixel at line 69 are the
    combined weights divided by their sum [S] plus [1e-10]; they add up
    to [S / (S + 1e-10)], which lies strictly between 0 and 1. *)
Theorem C6_renormalized_total (s : store) llow lhigh (low guide initial : rgrid)
    h w (sigma_spatial sigma_range : R) :
  valid_call cv2_resize s llow lhigh
    (fin_grid low) (fin_grid guide) (fin_grid initial) h w →
  (0 < sigma_spatial)%R → (0 < sigma_range)%R →
  ∃ (s' : store) (lres : loc) (out : ndarray),
    joint_bilateral_upsampling cv2_resize llow lhigh sigma_spatial sigma_range s
    = (s', inr lres)
    ∧ s' !! lres = Some out
    ∧ ∀ i j, i < h → j < w →
        let p := radius sigma_spatial in
        let combined_kernel :=
          combined_at (fin_grid (spatial_weights sigma_spatial))
            (pad_edge p (fin_grid guide)) p sigma_range (p + i) (p + j) in
        let input_window :=
          slice2 (p + i - p) (p + i + p + 1) (p + j - p) (p + j + p + 1)
            (pad_edge p (fin_grid initial)) in
        let total := combined_sum sigma_spatial sigma_range h w guide i j in
        get2 out i j = Some (np_sum (mul2 input_window (renormalize combined_kernel)))
        ∧ np_sum combined_kernel = Fin total
        ∧ np_sum (renormalize combined_kernel) = Fin (total / (total + eps))
        ∧ (0 < total / (total + eps) < 1)%R.
Proof.
  intros Hvalid Hss Hsr.
  pose proof (kernel_size_pos _ Hss) as Hk.
  destruct (joint_bilateral_upsampling_cells cv2_resize s llow lhigh _ _ _
    h w sigma_spatial sigma_range Hvalid)
    as (s' & lres & out & Hrun & Hout & _ & Hcells); [lra|lia|].
  destruct Hvalid as (_ & _ & _ & _ & Hrhigh & Hrup & Hh & Hw).
  apply rect_fin_grid_inv in Hrhigh, Hrup.
  exists s', lres, out. split; [done|]. split; [done|].
  intros i j Hi Hj p combined_kernel input_window total.
  split; [by apply Hcells|].
  split.
  - unfold combined_kernel, p.
    rewrite (combined_at_fin _ _ h w) by (done || lra || lia).
    by rewrite np_sum_fin.
  - apply renormalized_total; (done || lra || lia).
Qed.

(** C7 (amended).  For positive sigmas, finite arrays and a guide that
    is constant, the range kernel of every pixel holds 1 at every
    offset, and every output pixel is the plain Gaussian blur of the
    initial estimate divided by [1 + 1e-10]. *)
Theorem C7_constant_guide (s : store) llow lhigh (low guide initial : rgrid)
    h w (sigma_spatial sigma_range c : R) :
  valid_call cv2_resize s llow lhigh
    (fin_grid low) (fin_grid guide) (fin_grid initial) h w →
  (0 < sigma_spatial)%R → (0 < sigma_range)%R →
  (∀ a b, a < h → b < w → at2 guide a b = c) →
  ∃ (s' : store) (lres : loc) (out : ndarray),
    joint_bilateral_upsampling cv2_resize llow lhigh sigma_spatial sigma_range s
    = (s', inr lres)
    ∧ s' !! lres = Some out
    ∧ ∀ i j, i < h → j < w →
        let p := radius sigma_spatial in
        let padded_guide := pad_edge p (fin_grid guide) in
        range_kernel sigma_range
          (slice2 (p + i - p) (p + i + p + 1) (p + j - p) (p + j + p + 1) padded_guide)
          (default NaN (get2 padded_guide (p + i) (p + j)))
        = tabulate (side sigma_spatial) (side sigma_spatial) (λ _ _, Fin 1)
        ∧ get2 out i j
          = Some (Fin (spatial_blur sigma_spatial h w initial i j / (1 + eps))).
Proof.
  intros Hvalid Hss Hsr Hc.
  pose proof (kernel_size_pos _ Hss) as Hk.
  destruct (joint_bilateral_upsampling_fin cv2_resize s llow lhigh low guide initial
    h w sigma_spatial sigma_range Hvalid)
    as (s' & lres & out & Hrun & Hout & Hcells); [lra|lia|lra|].
  destruct Hvalid as (_ & _ & _ & _ & Hrhigh & Hrup & Hh & Hw).
  apply rect_fin_grid_inv in Hrhigh, Hrup.
  exists s', lres, out. split; [done|]. split; [done|].
  intros i j Hi Hj p padded_guide. split.
  - unfold padded_guide. rewrite (window_fin p h w) by done.
    rewrite (centre_fin p h w) by done. simpl default.
    unfold window. rewrite fin_grid_tabulate, range_kernel_fin by lra.
    unfold p. rewrite <- side_radius by lia.
    apply tabulate_ext_fun. intros u v _ _.
    rewrite !Hc by (done || by apply clamp_lt).
    by rewrite range_weight_same.
  - rewrite Hcells by done.
    by rewrite (pixel_value_constant _ _ _ _ _ _ c) by (done || lia).
Qed.

(** C8.  Whatever its arguments, the call leaves every object that
    existed before it as it was, the two input arrays among them, also
    when it raises; the object it returns did not exist before the
    call. *)
Theorem C8_inputs_unchanged (s : store) llow lhigh low high
    (sigma_spatial sigma_range : R) :
  s !! llow = Some low → s !! lhigh = Some high →
  let call := joint_bilateral_upsampling cv2_resize llow lhigh
                sigma_spatial sigma_range s in
  call.1 !! llow = Some low
  ∧ call.1 !! lhigh = Some high
  ∧ (∀ l a, s !! l = Some a → call.1 !! l = Some a)
  ∧ (∀ lres, call.2 = inr lres → s !! lres = None).
Proof.
  intros Hllow Hlhigh call.
  destruct (keeps_joint_bilateral_upsampling s cv2_resize llow lhigh
    sigma_spatial sigma_range s) as [Hag Hnew]; [by intros l a|].
  fold call in Hag, Hnew.
  split; [by apply Hag|]. split; [by apply Hag|]. done.
Qed.

(** C9.  For positive sigmas and finite arrays, every entry of the
    combined kernel of every pixel (line 65) is a positive real, so that
    their sum is positive and the divisor of line 66 is a positive real:
    no weight is zero and no division is by zero. *)
Theorem C9_combined_positive (s : store) llow lhigh (low guide initial : rgrid)
    h w (sigma_spatial sigma_range : R) i j :
  valid_call cv2_resize s llow lhigh
    (fin_grid low) (fin_grid guide) (fin_grid initial) h w →
  (0 < sigma_spatial)%R → (0 < sigma_range)%R → i < h → j < w →
  let p := radius sigma_spatial in
  let n := side sigma_spatial in
  let combined_kernel :=
    combined_at (fin_grid (spatial_weights sigma_spatial))
      (pad_edge p (fin_grid guide)) p sigma_range (p + i) (p + j) in
  rect n n combined_kernel
  ∧ (∀ u v, u < n → v < n →
       ∃ r : R, get2 combined_kernel u v = Some (Fin r) ∧ (0 < r)%R)
  ∧ ∃ total : R,
      np_sum combined_kernel = Fin total ∧ (0 < total)%R
      ∧ nf_add (np_sum combined_kernel) (Fin eps) = Fin (total + eps)
      ∧ (0 < total + eps)%R.
Proof.
  intros Hvalid Hss Hsr Hi Hj p n combined_kernel.
  pose proof (kernel_size_pos _ Hss) as Hk.
  destruct Hvalid as (_ & _ & _ & _ & Hrhigh & Hrup & Hh & Hw).
  apply rect_fin_grid_inv in Hrhigh, Hrup.
  unfold combined_kernel, p.
  rewrite (combined_at_fin _ _ h w) by (done || lra || lia).
  split; [apply rect_fin_grid, rect_tabulate|]. split.
  - intros u v Hu Hv.
    exists (combined_weight sigma_spatial sigma_range h w guide i j u v).
    rewrite get2_fin_grid, get2_tabulate by done.
    split; [done|]. apply combined_weight_pos; [lia|done|done].
  - exists (combined_sum sigma_spatial sigma_range h w guide i j).
    rewrite np_sum_fin. split; [done|].
    pose proof (combined_sum_pos sigma_spatial sigma_range h w guide i j ltac:(lia)).
    pose proof eps_pos. split; [done|]. split; [done|lra].
Qed.

(** C10.  For [0 < sigma_spatial < 2/3], a non-zero [sigma_range] and
    finite arrays, the kernel size is 1, the window of a pixel is the
    pixel itself, and every output pixel is the value of the initial
    estimate there divided by [1 + 1e-10]. *)
Theorem C10_single_entry_kernel (s : store) llow lhigh (low guide initial : rgrid)
    h w (sigma_spatial sigma_range : R) :
  valid_call cv2_resize s llow lhigh
    (fin_grid low) (fin_grid guide) (fin_grid initial) h w →
  (0 < sigma_spatial < 2 / 3)%R → sigma_range ≠ 0%R →
  kernel_size sigma_spatial = 1%Z
  ∧ ∃ (s' : store) (lres : loc) (out : ndarray),
      joint_bilateral_upsampling cv2_resize llow lhigh sigma_spatial sigma_range s
      = (s', inr lres)
      ∧ s' !! lres = Some out
      ∧ ∀ i j, i < h → j < w →
          let p := radius sigma_spatial in
          slice2 (p + i - p) (p + i + p + 1) (p + j - p) (p + j + p + 1)
            (pad_edge p (fin_grid initial))
          = [[Fin (at2 initial i j)]]
          ∧ get2 out i j = Some (Fin (at2 initial i j / (1 + eps))).
Proof.
  intros Hvalid Hss Hsr.
  assert (kernel_size sigma_spatial = 1%Z) as Hk by (apply kernel_size_small; lra).
  split; [done|].
  destruct (joint_bilateral_upsampling_fin cv2_resize s llow lhigh low guide initial
    h w sigma_spatial sigma_range Hvalid)
    as (s' & lres & out & Hrun & Hout & Hcells); [lra|lia|done|].
  destruct Hvalid as (_ & _ & _ & _ & Hrhigh & Hrup & Hh & Hw).
  apply rect_fin_grid_inv in Hrhigh, Hrup.
  exists s', lres, out. split; [done|]. split; [done|].
  intros i j Hi Hj p. split.
  - rewrite (window_fin p h w) by done. unfold window, p, radius.
    rewrite Hk. change (Z.to_nat (1 `div` 2)) with 0.
    rewrite tabulate_1_1. unfold clamp.
    replace ((i + 0 - 0) `min` (h - 1)) with i by lia.
    by replace ((j + 0 - 0) `min` (w - 1)) with j by lia.
  - rewrite Hcells by done. by rewrite pixel_value_single.
Qed.

End Claims.

(** * Instances of the claims, and inputs that refute the claims as the
    specification words them *)

Lemma C1_kernel_side_witness :
  (0 < 1)%R
  ∧ ∃ (s' : store) (l : loc) (k : ndarray),
      create_spatial_kernel 1 ∅ = (s', inr l) ∧ s' !! l = Some k
      ∧ rect (side 1) (side 1) k ∧ Nat.odd (side 1) = true.
Proof.
  assert (0 < 1)%R as H by lra. split; [exact H|].
  destruct (C1_kernel_side 1 ∅ H) as (s' & l & k & Hrun & Hk & Hrect & _ & _ & _ & Hodd).
  by exists s', l, k.
Defined.

(** At [sigma_spatial = 1] the kernel has 3 rows, not
    [2 * ceil(3 * 1) + 1 = 7]. *)
Lemma C1_counterexample :
  (0 < 1)%R
  ∧ ∃ (s' : store) (l : loc) (k : ndarray),
      create_spatial_kernel 1 ∅ = (s', inr l) ∧ s' !! l = Some k
      ∧ length k = 3
      ∧ length k ≠ Z.to_nat (2 * Zceil (3 * 1) + 1).
Proof.
  split; [lra|].
  eexists _, _, _. split.
  { apply create_spatial_kernel_run; [lra|]. rewrite kernel_size_one. lia. }
  split; [apply lookup_insert_eq|].
  assert (length (fin_grid (spatial_weights 1)) = 3) as Hlen.
  { destruct (rect_fin_grid _ _ _ (rect_spatial_weights 1)) as [-> _].
    unfold side. by rewrite kernel_size_one. }
  split; [done|]. rewrite Hlen.
  replace (3 * 1)%R with (IZR 3) by lra.
  rewrite (Zceil_eq 3) by (simpl; lra). done.
Qed.

Lemma C2_nonpositive_sigma_witness :
  valid_call resize_nearest ex1_store 0 1
    (fin_grid ex1_low) (fin_grid ex1_guide) (fin_grid ex1_low) 1 1
  ∧ (joint_bilateral_upsampling resize_nearest 0 1 0 1 ex1_store).2
    = inl ZeroDivisionError.
Proof.
  split; [exact ex1_valid|].
  destruct (C2_nonpositive_sigma resize_nearest ex1_store 0 1 _ _ _ 1 1 0%R 1%R ex1_valid)
    as [Hzero _].
  by destruct (Hzero eq_refl) as [_ Hcall].
Defined.

(** With [sigma_range = -1] the call raises nothing and returns an
    array. *)
Lemma C2_counterexample :
  (-1 <= 0)%R
  ∧ ∃ (s' : store) (lres : loc) (out : ndarray),
      joint_bilateral_upsampling resize_nearest 0 1 (1 / 2) (-1) ex1_store
      = (s', inr lres)
      ∧ s' !! lres = Some out
      ∧ get2 out 0 0 = Some (Fin (1 / (1 + eps))).
Proof. split; [lra|]. apply ex1_run. lra. Qed.

Lemma C3_pixel_weighted_sum_witness :
  ∃ (s' : store) (lres : loc) (out : ndarray),
    joint_bilateral_upsampling resize_nearest 0 1 1 10 ex_store = (s', inr lres)
    ∧ s' !! lres = Some out
    ∧ get2 out 0 0 = Some (Fin (pixel_value 1 10 4 4 ex_guide ex_initial 0 0)).
Proof.
  assert (0 < 1)%R as H1 by lra. assert (0 < 10)%R as H10 by lra.
  destruct (C3_pixel_weighted_sum resize_nearest ex_store 0 1 _ _ _ 4 4 1%R 10%R
    ex_valid H1 H10) as (s' & lres & out & Hrun & Hout & _ & Hcells).
  exists s', lres, out. split; [exact Hrun|]. split; [exact Hout|].
  assert (0 < 4) as H4 by lia.
  destruct (Hcells 0 0 H4 H4) as (_ & _ & Hcell). exact Hcell.
Defined.

Lemma C4_shape_preserved_witness :
  ∃ (s' : store) (lres : loc) (out : ndarray),
    joint_bilateral_upsampling resize_nearest 0 1 1 10 ex_store = (s', inr lres)
    ∧ s' !! lres = Some out
    ∧ rect 4 4 out.
Proof.
  assert (0 < 1)%R as H1 by lra. assert (0 < 10)%R as H10 by lra.
  destruct (C4_shape_preserved resize_nearest ex_store 0 1 _ _ _ 4 4 1%R 10%R
    ex_valid H1 H10) as (s' & lres & out & Hrun & Hout & Hrect & _).
  by exists s', lres, out.
Defined.

Lemma C5_kernel_normalized_witness :
  ∃ (s' : store) (l : loc) (k : ndarray),
    create_spatial_kernel 1 ∅ = (s', inr l) ∧ s' !! l = Some k
    ∧ np_sum k = Fin 1.
Proof.
  assert (0 < 1)%R as H1 by lra.
  destruct (C5_kernel_normalized 1 ∅ H1) as (s' & l & k & Hrun & Hk & _ & Hsum).
  by exists s', l, k.
Defined.

Lemma C6_renormalized_total_witness :
  ∃ (s' : store) (lres : loc) (out : ndarray),
    joint_bilateral_upsampling resize_nearest 0 1 1 10 ex_store = (s', inr lres)
    ∧ s' !! lres = Some out
    ∧ (0 < combined_sum 1 10 4 4 ex_guide 0 0
           / (combined_sum 1 10 4 4 ex_guide 0 0 + eps) < 1)%R.
Proof.
  assert (0 < 1)%R as H1 by lra. assert (0 < 10)%R as H10 by lra.
  destruct (C6_renormalized_total resize_nearest ex_store 0 1 _ _ _ 4 4 1%R 10%R
    ex_valid H1 H10) as (s' & lres & out & Hrun & Hout & Hcells).
  exists s', lres, out. split; [exact Hrun|]. split; [exact Hout|].
  assert (0 < 4) as H4 by lia.
  destruct (Hcells 0 0 H4 H4) as (_ & _ & _ & Hlt). exact Hlt.
Defined.

(** On the example of the specification, the renormalized weights of
    pixel (0, 0) do not add up to 1. *)
Lemma C6_counterexample :
  ∃ total : R,
    np_sum (renormalize
      (combined_at (fin_grid (spatial_weights 1))
         (pad_edge (radius 1) (fin_grid ex_guide)) (radius 1) 10
         (radius 1 + 0) (radius 1 + 0)))
    = Fin total
    ∧ total ≠ 1%R.
Proof.
  destruct (renormalized_total 1 10 4 4 ex_guide 0 0) as [Hsum Hlt];
    try lia; try lra; try apply rect_ex_guide.
  { rewrite kernel_size_one. lia. }
  eexists. split; [exact Hsum|]. lra.
Qed.

Lemma ex1_guide_constant a b : a < 1 → b < 1 → at2 ex1_guide a b = 0%R.
Proof. intros Ha Hb. by destruct a, b; try lia. Qed.

Lemma ex_const_valid :
  valid_call resize_nearest ex_const_store 0 1
    (fin_grid ex_low) (fin_grid ex_const_guide) (fin_grid ex_initial) 4 4.
Proof.
  unfold valid_call. repeat split; try done; try lia.
  - repeat constructor.
  - repeat constructor.
Qed.

Lemma ex_const_guide_constant a b : a < 4 → b < 4 → at2 ex_const_guide a b = 50%R.
Proof.
  intros Ha Hb.
  destruct a as [|[|[|[|a]]]]; [| | | |lia];
    (destruct b as [|[|[|[|b]]]]; [| | | |lia]); reflexivity.
Qed.

(** A constant 4 by 4 guide, a 3 by 3 kernel ([sigma_spatial = 1]) and
    an initial estimate that is not constant: at pixel (1, 2) the range
    kernel holds 1 at its nine offsets, and the output is the blur of the
    initial estimate divided by [1 + 1e-10]. *)
Lemma C7_constant_guide_witness :
  side 1 = 3
  ∧ ∃ (s' : store) (lres : loc) (out : ndarray),
      joint_bilateral_upsampling resize_nearest 0 1 1 10 ex_const_store
      = (s', inr lres)
      ∧ s' !! lres = Some out
      ∧ range_kernel 10
          (slice2 (radius 1 + 1 - radius 1) (radius 1 + 1 + radius 1 + 1)
                  (radius 1 + 2 - radius 1) (radius 1 + 2 + radius 1 + 1)
                  (pad_edge (radius 1) (fin_grid ex_const_guide)))
          (default NaN (get2 (pad_edge (radius 1) (fin_grid ex_const_guide))
                             (radius 1 + 1) (radius 1 + 2)))
        = tabulate (side 1) (side 1) (λ _ _, Fin 1)
      ∧ get2 out 1 2 = Some (Fin (spatial_blur 1 4 4 ex_initial 1 2 / (1 + eps))).
Proof.
  split; [unfold side; rewrite kernel_size_one; reflexivity|].
  assert (0 < 1)%R as Hs by lra. assert (0 < 10)%R as H10 by lra.
  destruct (C7_constant_guide resize_nearest ex_const_store 0 1 _ _ _ 4 4 1%R 10%R 50%R
    ex_const_valid Hs H10 ex_const_guide_constant)
    as (s' & lres & out & Hrun & Hout & Hcells).
  exists s', lres, out. split; [exact Hrun|]. split; [exact Hout|].
  assert (1 < 4) as Ha by lia. assert (2 < 4) as Hb by lia.
  exact (Hcells 1 2 Ha Hb).
Defined.

Lemma spatial_blur_ex1 : spatial_blur (1 / 2) 1 1 ex1_low 0 0 = 1%R.
Proof.
  unfold spatial_blur. rewrite (spatial_weights_single _ kernel_size_half).
  unfold side, radius. rewrite kernel_size_half.
  change (Z.to_nat (1 `div` 2)) with 0. change (Z.to_nat 1) with 1.
  rewrite tabulate_1_1. unfold rsum2, rsum, at2. simpl. lra.
Qed.

(** With the constant 1 by 1 guide and the initial estimate 1, the
    output is [1 / (1 + 1e-10)], not the blur of the initial estimate,
    which is 1. *)
Lemma C7_counterexample :
  (∀ a b, a < 1 → b < 1 → at2 ex1_guide a b = 0%R)
  ∧ ∃ (s' : store) (lres : loc) (out : ndarray),
      joint_bilateral_upsampling resize_nearest 0 1 (1 / 2) 1 ex1_store
      = (s', inr lres)
      ∧ s' !! lres = Some out
      ∧ get2 out 0 0 ≠ Some (Fin (spatial_blur (1 / 2) 1 1 ex1_low 0 0)).
Proof.
  split; [apply ex1_guide_constant|].
  destruct (ex1_run 1) as (s' & lres & out & Hrun & Hout & Hcell); [lra|].
  exists s', lres, out. split; [done|]. split; [done|].
  rewrite Hcell, spatial_blur_ex1. intros [= Heq].
  by apply (one_plus_eps_ne 1).
Qed.

Lemma C8_inputs_unchanged_witness :
  (joint_bilateral_upsampling resize_nearest 0 1 1 10 ex_store).1 !! 0
  = Some (fin_grid ex_low)
  ∧ (joint_bilateral_upsampling resize_nearest 0 1 1 10 ex_store).1 !! 1
    = Some (fin_grid ex_guide).
Proof.
  assert (ex_store !! 0 = Some (fin_grid ex_low)) as H0 by reflexivity.
  assert (ex_store !! 1 = Some (fin_grid ex_guide)) as H1 by reflexivity.
  destruct (C8_inputs_unchanged resize_nearest ex_store 0 1 _ _ 1%R 10%R H0 H1)
    as (Hlow & Hhigh & _).
  split; [exact Hlow|exact Hhigh].
Defined.

Lemma C9_combined_positive_witness :
  ∃ total : R,
    np_sum (combined_at (fin_grid (spatial_weights 1))
              (pad_edge (radius 1) (fin_grid ex_guide)) (radius 1) 10
              (radius 1 + 0) (radius 1 + 0))
    = Fin total
    ∧ (0 < total)%R.
Proof.
  assert (0 < 1)%R as H1 by lra. assert (0 < 10)%R as H10 by lra.
  assert (0 < 4) as H4 by lia.
  destruct (C9_combined_positive resize_nearest ex_store 0 1 _ _ _ 4 4 1%R 10%R 0 0
    ex_valid H1 H10 H4 H4) as (_ & _ & total & Hsum & Hpos & _).
  exists total. split; [exact Hsum|exact Hpos].
Defined.

Lemma C10_single_entry_kernel_witness :
  kernel_size (1 / 2) = 1%Z
  ∧ ∃ (s' : store) (lres : loc) (out : ndarray),
      joint_bilateral_upsampling resize_nearest 0 1 (1 / 2) 10 ex_store
      = (s', inr lres)
      ∧ s' !! lres = Some out
      ∧ get2 out 3 3 = Some (Fin (30 / (1 + eps))).
Proof.
  assert (0 < 1 / 2 < 2 / 3)%R as Hs by lra. assert (10 ≠ 0)%R as H10 by lra.
  destruct (C10_single_entry_kernel resize_nearest ex_store 0 1 _ _ _ 4 4
    (1 / 2)%R 10%R ex_valid Hs H10)
    as (Hk & s' & lres & out & Hrun & Hout & Hcells).
  split; [exact Hk|].
  exists s', lres, out. split; [exact Hrun|]. split; [exact Hout|].
  assert (3 < 4) as H3 by lia.
  destruct (Hcells 3 3 H3 H3) as [_ Hcell]. exact Hcell.
Defined.

(** * Further properties of [joint_bilateral_upsampling] *)

(** ** nan in sums and products *)

Lemma nf_add_nan_r x : nf_add x NaN = NaN.
Proof. by destruct x. Qed.

Lemma nf_mul_nan_r x : nf_mul x NaN = NaN.
Proof. by destruct x. Qed.

Lemma nf_div_nan_r x : nf_div x NaN = NaN.
Proof. by destruct x. Qed.

Lemma foldr_nf_add_nan l : NaN ∈ l → foldr nf_add (Fin 0) l = NaN.
Proof.
  induction l as [|x l IH]; intros Hin; [by apply not_elem_of_nil in Hin|].
  apply elem_of_cons in Hin as [<-|Hin]; simpl; [done|].
  rewrite IH by done. apply nf_add_nan_r.
Qed.

Lemma elem_of_concat_get2 {A} (a : list (list A)) i j x :
  get2 a i j = Some x → x ∈ concat a.
Proof.
  unfold get2. intros Hx.
  destruct (a !! i) as [row|] eqn:Hrow; [|done]. simpl in Hx.
  apply list_elem_of_In, in_concat. exists row.
  split; apply list_elem_of_In; by eapply list_elem_of_lookup_2.
Qed.

Lemma np_sum_nan a i j : get2 a i j = Some NaN → np_sum a = NaN.
Proof.
  intros Hx. unfold np_sum. by eapply foldr_nf_add_nan, elem_of_concat_get2.
Qed.

Lemma get2_fmap2 {A B} (g : A → B) (a : list (list A)) i j :
  get2 (fmap (M := list) (fmap (M := list) g) a) i j = g <$> get2 a i j.
Proof.
  unfold get2. rewrite list_lookup_fmap.
  destruct (a !! i) as [row|]; [|done]. simpl. by rewrite list_lookup_fmap.
Qed.

Lemma get2_zip_with2 {A B C} (g : A → B → C) a b i j x y :
  get2 a i j = Some x → get2 b i j = Some y →
  get2 (zip_with (zip_with g) a b) i j = Some (g x y).
Proof.
  unfold get2. intros Hx Hy.
  destruct (a !! i) as [ra|] eqn:Hra; [|done].
  destruct (b !! i) as [rb|] eqn:Hrb; [|done]. simpl in *.
  rewrite lookup_zip_with, Hra. simpl. rewrite Hrb. simpl.
  rewrite lookup_zip_with, Hx. simpl. by rewrite Hy.
Qed.

(** With [sigma_range = 0] the range kernel holds nan wherever the
    window holds the centre value itself. *)
Lemma range_entry_zero x :
  nf_exp (nf_div (nf_neg (nf_sq (nf_sub x x))) (Fin (2 * 0 ^ 2))) = NaN.
Proof.
  destruct x as [r| | |]; try done.
  unfold nf_sq, nf_sub, nf_neg, nf_add, nf_mul, nf_div.
  destruct (Req_dec_T (2 * 0 ^ 2) 0) as [_|Hne]; [|exfalso; apply Hne; lra].
  unfold signed_inf.
  destruct (Rlt_dec 0 (- ((r + - r) * (r + - r)))) as [?|_]; [lra|].
  by destruct (Rlt_dec (- ((r + - r) * (r + - r))) 0) as [?|_]; [lra|].
Qed.

(** With [sigma_range = 0] an iteration of the pixel loop computes
    nan. *)
Lemma body_value_zero k pg pin p h w i j :
  rect (2 * p + 1) (2 * p + 1) k →
  rect (h + 2 * p) (w + 2 * p) pg → rect (h + 2 * p) (w + 2 * p) pin →
  i < h → j < w →
  body_value k pg pin p 0 (p + i) (p + j) = NaN.
Proof.
  intros Hk Hpg Hpin Hi Hj.
  pose proof (rect_window p h w pg i j Hpg Hi Hj) as Hgw.
  pose proof (rect_window p h w pin i j Hpin Hi Hj) as Hiw.
  destruct (get2_is_Some _ _ pg (p + i) (p + j) Hpg) as [c Hc]; [lia|lia|].
  destruct (get2_is_Some _ _ k p p Hk) as [kc Hkc]; [lia|lia|].
  destruct (get2_is_Some _ _ _ 0 0 Hiw) as [x Hx]; [lia|lia|].
  set (gw := slice2 (p + i - p) (p + i + p + 1) (p + j - p) (p + j + p + 1) pg) in *.
  assert (get2 gw p p = Some c) as Hcentre.
  { unfold gw. rewrite get2_slice2 by lia. rewrite <- Hc. f_equal; lia. }
  assert (get2 (combined_at k pg p 0 (p + i) (p + j)) p p = Some NaN) as Hcomb.
  { unfold combined_at. fold gw. rewrite Hc. simpl default. unfold mul2.
    erewrite get2_zip_with2; [|done|].
    - by rewrite nf_mul_nan_r.
    - unfold range_kernel. rewrite !get2_fmap2, Hcentre. simpl.
      by rewrite range_entry_zero. }
  assert (rect (2 * p + 1) (2 * p + 1) (combined_at k pg p 0 (p + i) (p + j))) as Hrc.
  { unfold combined_at, mul2. apply rect_zip_with2; [done|].
    by apply rect_range_kernel. }
  destruct (get2_is_Some _ _ _ 0 0 Hrc) as [y Hy]; [lia|lia|].
  unfold body_value. apply (np_sum_nan _ 0 0). unfold mul2.
  erewrite get2_zip_with2; [|done|].
  - by rewrite nf_mul_nan_r.
  - unfold renormalize, div_scalar. rewrite get2_fmap2, Hy. simpl.
    rewrite (np_sum_nan _ p p Hcomb). simpl nf_add. by rewrite nf_div_nan_r.
Qed.

(** ** Sums of tables, term by term *)

Lemma rsum_fmap_le {B} (f g : B → R) l :
  (∀ x, x ∈ l → (f x <= g x)%R) → (rsum (f <$> l) <= rsum (g <$> l))%R.
Proof.
  unfold rsum. induction l as [|x l IH]; intros Hfg; [simpl; lra|].
  rewrite !fmap_cons. cbn [foldr].
  pose proof (Hfg x ltac:(left)).
  assert (foldr Rplus 0 (f <$> l) <= foldr Rplus 0 (g <$> l))%R
    by (apply IH; intros y Hy; apply Hfg; by right).
  lra.
Qed.

Lemma rsum2_tabulate_le h w (f g : nat → nat → R) :
  (∀ u v, u < h → v < w → (f u v <= g u v)%R) →
  (rsum2 (tabulate h w f) <= rsum2 (tabulate h w g))%R.
Proof.
  intros Hfg. rewrite !rsum2_tabulate. apply rsum_fmap_le.
  intros u Hu. apply elem_of_seq in Hu. apply rsum_fmap_le.
  intros v Hv. apply elem_of_seq in Hv. apply Hfg; lia.
Qed.

Lemma rsum_fmap_add {B} (f g : B → R) l :
  rsum ((λ x, f x + g x)%R <$> l) = (rsum (f <$> l) + rsum (g <$> l))%R.
Proof.
  unfold rsum. induction l as [|x l IH]; [simpl; lra|].
  rewrite !fmap_cons. cbn [foldr]. rewrite IH. lra.
Qed.

Lemma rsum2_tabulate_add h w (f g : nat → nat → R) :
  rsum2 (tabulate h w (λ u v, f u v + g u v)%R)
  = (rsum2 (tabulate h w f) + rsum2 (tabulate h w g))%R.
Proof.
  rewrite !rsum2_tabulate, <- rsum_fmap_add. f_equal.
  apply list_fmap_ext. intros _ u _. apply rsum_fmap_add.
Qed.

Lemma rsum2_tabulate_zero h w : rsum2 (tabulate h w (λ _ _, 0%R)) = 0%R.
Proof.
  rewrite (tabulate_ext_fun h w (λ _ _, 0%R) (λ _ _, (0 * 0)%R)) by (intros; lra).
  rewrite (rsum2_tabulate_scale h w (λ _ _, 0%R) 0). lra.
Qed.

(** ** The weights of line 69 *)

Lemma final_weight_pos sigma_spatial sigma_range h w guide i j u v :
  (0 ≤ kernel_size sigma_spatial)%Z →
  u < side sigma_spatial → v < side sigma_spatial →
  (0 < final_weight sigma_spatial sigma_range h w guide i j u v)%R.
Proof.
  intros Hk Hu Hv. unfold final_weight. apply Rdiv_lt_0_compat.
  - by apply combined_weight_pos.
  - by apply combined_sum_eps_pos.
Qed.

Lemma final_weight_total sigma_spatial sigma_range h w guide i j :
  (0 ≤ kernel_size sigma_spatial)%Z →
  (0 < rsum2 (tabulate (side sigma_spatial) (side sigma_spatial)
            (final_weight sigma_spatial sigma_range h w guide i j)) < 1)%R.
Proof.
  intros Hk. rewrite final_weight_sum.
  pose proof (combined_sum_pos sigma_spatial sigma_range h w guide i j Hk) as HS.
  pose proof eps_pos as He.
  set (total := combined_sum sigma_spatial sigma_range h w guide i j) in *.
  split; [apply Rdiv_lt_0_compat; lra|].
  replace (total / (total + eps))%R with (1 - eps / (total + eps))%R by (field; lra).
  assert (0 < eps / (total + eps))%R by (apply Rdiv_lt_0_compat; lra). lra.
Qed.

(** The value of a pixel lies in any interval [[0, bound]] that holds
    the initial estimate. *)
Lemma pixel_value_range sigma_spatial sigma_range h w (guide initial : rgrid) bound i j :
  (0 ≤ kernel_size sigma_spatial)%Z → 0 < h → 0 < w →
  (∀ a b, a < h → b < w → (0 <= at2 initial a b <= bound)%R) →
  (0 <= pixel_value sigma_spatial sigma_range h w guide initial i j <= bound)%R.
Proof.
  intros Hk Hh Hw Hin. unfold pixel_value.
  set (n := side sigma_spatial). set (p := radius sigma_spatial).
  set (fw := final_weight sigma_spatial sigma_range h w guide i j).
  assert (0 <= bound)%R as Hb by (pose proof (Hin 0 0 Hh Hw); lra).
  assert (∀ u v, u < n → v < n →
    (0 <= at2 initial (clamp p h (i + u)) (clamp p w (j + v)) <= bound)%R) as Hx.
  { intros u v _ _. apply Hin; by apply clamp_lt. }
  assert (∀ u v, u < n → v < n → (0 < fw u v)%R) as Hfw.
  { intros u v Hu Hv. by apply final_weight_pos. }
  split.
  - rewrite <- (rsum2_tabulate_zero n n). apply rsum2_tabulate_le.
    intros u v Hu Hv. pose proof (Hx u v Hu Hv). pose proof (Hfw u v Hu Hv). nra.
  - pose proof (final_weight_total sigma_spatial sigma_range h w guide i j Hk) as Ht.
    fold n fw in Ht.
    apply Rle_trans with (rsum2 (tabulate n n (λ u v, fw u v * bound)%R)).
    + apply rsum2_tabulate_le. intros u v Hu Hv.
      pose proof (Hx u v Hu Hv). pose proof (Hfw u v Hu Hv). nra.
    + rewrite rsum2_tabulate_scale. nra.
Qed.

(** ** The guide enters by differences only *)

Lemma range_weight_shift sigma_range g c d :
  range_weight sigma_range (g + d) (c + d) = range_weight sigma_range g c.
Proof. unfold range_weight. by replace (g + d - (c + d))%R with (g - c)%R by ring. Qed.

Lemma at2_shift_grid h w (a : rgrid) d i j :
  rect h w a → i < h → j < w → at2 (shift_grid d a) i j = (at2 a i j + d)%R.
Proof.
  intros Ha Hi Hj. unfold at2 at 1, shift_grid.
  by rewrite get2_fmap2, (get2_at2 h w).
Qed.

Lemma pixel_value_shift sigma_spatial sigma_range h w (guide initial : rgrid) d i j :
  rect h w guide → 0 < h → 0 < w → i < h → j < w →
  pixel_value sigma_spatial sigma_range h w (shift_grid d guide) initial i j
  = pixel_value sigma_spatial sigma_range h w guide initial i j.
Proof.
  intros Hg Hh Hw Hi Hj.
  assert (∀ u v, combined_weight sigma_spatial sigma_range h w (shift_grid d guide) i j u v
                 = combined_weight sigma_spatial sigma_range h w guide i j u v) as Hcw.
  { intros u v. unfold combined_weight.
    rewrite !(at2_shift_grid h w) by (done || by apply clamp_lt).
    by rewrite range_weight_shift. }
  assert (combined_sum sigma_spatial sigma_range h w (shift_grid d guide) i j
          = combined_sum sigma_spatial sigma_range h w guide i j) as Hcs.
  { unfold combined_sum. f_equal. apply tabulate_ext_fun. intros u v _ _. apply Hcw. }
  unfold pixel_value. f_equal. apply tabulate_ext_fun. intros u v _ _.
  unfold final_weight. by rewrite Hcw, Hcs.
Qed.

(** ** The value is linear in the initial estimate *)

Lemma at2_combine_grids h w (x y : rgrid) a b i j :
  rect h w x → rect h w y → i < h → j < w →
  at2 (combine_grids a b x y) i j = (a * at2 x i j + b * at2 y i j)%R.
Proof.
  intros Hx Hy Hi Hj. unfold at2 at 1, combine_grids.
  by erewrite get2_zip_with2 by by apply (get2_at2 h w).
Qed.

Lemma rect_combine_grids h w (x y : rgrid) a b :
  rect h w x → rect h w y → rect h w (combine_grids a b x y).
Proof. apply rect_zip_with2. Qed.

Lemma pixel_value_linear sigma_spatial sigma_range h w (guide x y : rgrid) a b i j :
  rect h w x → rect h w y → 0 < h → 0 < w →
  pixel_value sigma_spatial sigma_range h w guide (combine_grids a b x y) i j
  = (a * pixel_value sigma_spatial sigma_range h w guide x i j
     + b * pixel_value sigma_spatial sigma_range h w guide y i j)%R.
Proof.
  intros Hx Hy Hh Hw. unfold pixel_value.
  set (n := side sigma_spatial). set (p := radius sigma_spatial).
  set (fw := final_weight sigma_spatial sigma_range h w guide i j).
  rewrite (Rmult_comm a), (Rmult_comm b), <- !rsum2_tabulate_scale,
    <- rsum2_tabulate_add.
  f_equal. apply tabulate_ext_fun. intros u v _ _.
  rewrite (at2_combine_grids h w) by (done || by apply clamp_lt). ring.
Qed.

(** ** The shape of the kernel *)

Lemma gauss_transpose sigma_spatial center u v :
  gauss sigma_spatial center u v = gauss sigma_spatial center v u.
Proof. unfold gauss. by rewrite Z.add_comm. Qed.

Lemma gauss_reflect sigma_spatial (c : nat) u v :
  u ≤ 2 * c → v ≤ 2 * c →
  gauss sigma_spatial (Z.of_nat c) (2 * c - u) (2 * c - v)
  = gauss sigma_spatial (Z.of_nat c) u v.
Proof.
  intros Hu Hv. unfold gauss. do 4 f_equal.
  rewrite !Nat2Z.inj_sub by lia. rewrite Nat2Z.inj_mul. simpl Z.of_nat. ring.
Qed.

Lemma gauss_le_centre sigma_spatial (center : Z) u v :
  sigma_spatial ≠ 0%R →
  (gauss sigma_spatial center u v <= 1)%R.
Proof.
  intros Hs. unfold gauss. rewrite <- exp_0.
  set (d := ((Z.of_nat u - center) ^ 2 + (Z.of_nat v - center) ^ 2)%Z).
  assert (0 ≤ d)%Z as Hd by (unfold d; nia).
  assert (IZR (- d) <= 0)%R as Hd' by (apply IZR_le; lia).
  assert (0 < 2 * sigma_spatial ^ 2)%R as Hden by nra.
  assert (IZR (- d) / (2 * sigma_spatial ^ 2) <= 0)%R as Hle.
  { unfold Rdiv. assert (0 < / (2 * sigma_spatial ^ 2))%R by by apply Rinv_0_lt_compat.
    nra. }
  destruct Hle as [Hlt | ->]; [left; by apply exp_increasing|right; done].
Qed.

Lemma gauss_centre sigma_spatial (c : nat) :
  gauss sigma_spatial (Z.of_nat c) c c = 1%R.
Proof.
  unfold gauss. rewrite Z.sub_diag. simpl Z.pow. simpl Z.add. simpl Z.opp.
  unfold Rdiv. rewrite Rmult_0_l. apply exp_0.
Qed.

Lemma radius_centre sigma_spatial :
  (0 ≤ kernel_size sigma_spatial)%Z →
  (kernel_size sigma_spatial `div` 2)%Z = Z.of_nat (radius sigma_spatial).
Proof. intros Hk. unfold radius. rewrite Z2Nat.id; [done|zdiv]. Qed.

(** ** The value depends on the window only *)



Section Further.
Variable cv2_resize : ndarray → nat → nat → option ndarray.

(** X1.  A coarse array without rows makes line 27 divide by zero: the
    call raises [ZeroDivisionError] before [cv2.resize] is called, and
    the store is as it was. *)
Theorem X1_empty_coarse_raises (s : store) llow lhigh low high
    (sigma_spatial sigma_range : R) :
  s !! llow = Some low → s !! lhigh = Some high → shape0 low = 0 →
  joint_bilateral_upsampling cv2_resize llow lhigh sigma_spatial sigma_range s
  = (s, inl ZeroDivisionError).
Proof.
  intros Hllow Hlhigh Hlow. unfold joint_bilateral_upsampling.
  erewrite bind_ok; last by apply load_ok.
  erewrite bind_ok; last by apply load_ok.
  apply bind_raise. unfold py_floordiv.
  by destruct (decide (shape0 low = 0)).
Qed.

(** X2.  Only the square of [sigma_range] is used: a call with
    [- sigma_range] does what the call with [sigma_range] does, on every
    store and for all arguments. *)
Theorem X2_sigma_range_sign (s : store) llow lhigh (sigma_spatial sigma_range : R) :
  joint_bilateral_upsampling cv2_resize llow lhigh sigma_spatial (- sigma_range) s
  = joint_bilateral_upsampling cv2_resize llow lhigh sigma_spatial sigma_range s.
Proof.
  unfold joint_bilateral_upsampling, apply_joint_bilateral_filter, pixel_body,
    range_kernel.
  by replace (2 * (- sigma_range) ^ 2)%R with (2 * sigma_range ^ 2)%R by ring.
Qed.

(** X3.  With [sigma_range = 0] and a positive [sigma_spatial] nothing
    is raised: the call returns an array of the guide's shape that holds
    nan in every cell. *)
Theorem X3_sigma_range_zero_nan (s : store) llow lhigh low high up h w
    (sigma_spatial : R) :
  valid_call cv2_resize s llow lhigh low high up h w →
  (0 < sigma_spatial)%R →
  ∃ (s' : store) (lres : loc) (out : ndarray),
    joint_bilateral_upsampling cv2_resize llow lhigh sigma_spatial 0 s
    = (s', inr lres)
    ∧ s' !! lres = Some out
    ∧ rect h w out
    ∧ ∀ i j, i < h → j < w → get2 out i j = Some NaN.
Proof.
  intros Hvalid Hss.
  pose proof (kernel_size_pos _ Hss) as Hk.
  destruct (joint_bilateral_upsampling_cells cv2_resize s llow lhigh low high up
    h w sigma_spatial 0 Hvalid)
    as (s' & lres & out & Hrun & Hout & Hrect & Hcells); [lra|lia|].
  destruct Hvalid as (_ & _ & _ & _ & Hrhigh & Hrup & Hh & Hw).
  exists s', lres, out. split; [done|]. split; [done|]. split; [done|].
  intros i j Hi Hj. rewrite Hcells by done. f_equal.
  apply (body_value_zero _ _ _ _ h w); [|by apply rect_pad_edge..|done|done].
  rewrite <- side_radius by lia. apply rect_fin_grid, rect_spatial_weights.
Qed.

(** X4.  For positive sigmas and finite arrays, an initial estimate
    with all values in [[0, bound]] gives an output with all values in
    [[0, bound]]: the filter neither overshoots nor goes negative. *)
Theorem X4_output_within_range (s : store) llow lhigh (low guide initial : rgrid)
    h w (sigma_spatial sigma_range bound : R) :
  valid_call cv2_resize s llow lhigh
    (fin_grid low) (fin_grid guide) (fin_grid initial) h w →
  (0 < sigma_spatial)%R → (0 < sigma_range)%R →
  (∀ a b, a < h → b < w → (0 <= at2 initial a b <= bound)%R) →
  ∃ (s' : store) (lres : loc) (out : ndarray),
    joint_bilateral_upsampling cv2_resize llow lhigh sigma_spatial sigma_range s
    = (s', inr lres)
    ∧ s' !! lres = Some out
    ∧ ∀ i j, i < h → j < w →
        ∃ r : R, get2 out i j = Some (Fin r) ∧ (0 <= r <= bound)%R.
Proof.
  intros Hvalid Hss Hsr Hin.
  pose proof (kernel_size_pos _ Hss) as Hk.
  destruct (joint_bilateral_upsampling_fin cv2_resize s llow lhigh low guide initial
    h w sigma_spatial sigma_range Hvalid)
    as (s' & lres & out & Hrun & Hout & Hcells); [lra|lia|lra|].
  destruct Hvalid as (_ & _ & _ & _ & _ & _ & Hh & Hw).
  exists s', lres, out. split; [done|]. split; [done|].
  intros i j Hi Hj. eexists. split; [by apply Hcells|].
  apply pixel_value_range; (done || lia).
Qed.

(** X5.  For a positive [sigma_spatial], a non-zero [sigma_range] and
    finite arrays, adding one constant to every guide value does not
    change the output: the guide enters through differences of its
    values only. *)
Theorem X5_guide_offset (s1 s2 : store) llow lhigh (low guide initial : rgrid)
    h w (sigma_spatial sigma_range d : R) :
  valid_call cv2_resize s1 llow lhigh
    (fin_grid low) (fin_grid guide) (fin_grid initial) h w →
  valid_call cv2_resize s2 llow lhigh
    (fin_grid low) (fin_grid (shift_grid d guide)) (fin_grid initial) h w →
  (0 < sigma_spatial)%R → sigma_range ≠ 0%R →
  ∃ (s1' s2' : store) (l1 l2 : loc) (out1 out2 : ndarray),
    joint_bilateral_upsampling cv2_resize llow lhigh sigma_spatial sigma_range s1
    = (s1', inr l1)
    ∧ joint_bilateral_upsampling cv2_resize llow lhigh sigma_spatial sigma_range s2
      = (s2', inr l2)
    ∧ s1' !! l1 = Some out1 ∧ s2' !! l2 = Some out2
    ∧ ∀ i j, i < h → j < w → get2 out2 i j = get2 out1 i j.
Proof.
  intros Hv1 Hv2 Hss Hsr.
  pose proof (kernel_size_pos _ Hss) as Hk.
  destruct (joint_bilateral_upsampling_fin cv2_resize s1 llow lhigh low guide initial
    h w sigma_spatial sigma_range Hv1)
    as (s1' & l1 & out1 & Hrun1 & Hout1 & Hcells1); [lra|lia|done|].
  destruct (joint_bilateral_upsampling_fin cv2_resize s2 llow lhigh low _ initial
    h w sigma_spatial sigma_range Hv2)
    as (s2' & l2 & out2 & Hrun2 & Hout2 & Hcells2); [lra|lia|done|].
  destruct Hv1 as (_ & _ & _ & _ & Hrg & _ & Hh & Hw).
  apply rect_fin_grid_inv in Hrg.
  exists s1', s2', l1, l2, out1, out2. repeat (split; [done|]).
  intros i j Hi Hj. rewrite Hcells1, Hcells2 by done.
  by rewrite pixel_value_shift.
Qed.

(** X6.  For every [sigma_spatial > 0] the kernel of lines 34-44 is
    symmetric: an entry equals its transpose, and it equals the entry
    opposite to it through the centre. *)
Theorem X6_kernel_symmetric (sigma_spatial : R) (s : store) :
  (0 < sigma_spatial)%R →
  ∃ (s' : store) (l : loc) (k : ndarray),
    create_spatial_kernel sigma_spatial s = (s', inr l)
    ∧ s' !! l = Some k
    ∧ ∀ u v, u < side sigma_spatial → v < side sigma_spatial →
        get2 k v u = get2 k u v
        ∧ get2 k (side sigma_spatial - 1 - u) (side sigma_spatial - 1 - v)
          = get2 k u v.
Proof.
  intros Hs.
  pose proof (kernel_size_pos _ Hs) as Hk.
  exists (<[fresh (dom s) := fin_grid (spatial_weights sigma_spatial)]> s),
    (fresh (dom s)), (fin_grid (spatial_weights sigma_spatial)).
  split; [apply create_spatial_kernel_run; [lra|lia]|].
  split; [apply lookup_insert_eq|].
  intros u v Hu Hv.
  rewrite spatial_weights_tabulate, fin_grid_tabulate.
  rewrite !get2_tabulate by lia. split.
  - by rewrite gauss_transpose.
  - rewrite radius_centre by lia.
    rewrite (side_radius sigma_spatial) by lia.
    rewrite (side_radius sigma_spatial) in Hu, Hv by lia.
    replace (2 * radius sigma_spatial + 1 - 1 - u) with (2 * radius sigma_spatial - u) by lia.
    replace (2 * radius sigma_spatial + 1 - 1 - v) with (2 * radius sigma_spatial - v) by lia.
    rewrite gauss_reflect by lia. done.
Qed.

(** X7.  For every [sigma_spatial > 0] no entry of the kernel is larger
    than the entry at its centre [(kernel_size // 2, kernel_size // 2)]. *)
Theorem X7_kernel_centre_largest (sigma_spatial : R) (s : store) :
  (0 < sigma_spatial)%R →
  ∃ (s' : store) (l : loc) (k : ndarray) (top : R),
    create_spatial_kernel sigma_spatial s = (s', inr l)
    ∧ s' !! l = Some k
    ∧ get2 k (radius sigma_spatial) (radius sigma_spatial) = Some (Fin top)
    ∧ ∀ u v x, get2 k u v = Some x → ∃ r : R, x = Fin r ∧ (r <= top)%R.
Proof.
  intros Hs.
  pose proof (kernel_size_pos _ Hs) as Hk.
  pose proof (gauss_kernel_sum_pos sigma_spatial ltac:(lia)) as Hsum.
  pose proof (side_radius sigma_spatial ltac:(lia)) as Hside.
  exists (<[fresh (dom s) := fin_grid (spatial_weights sigma_spatial)]> s),
    (fresh (dom s)), (fin_grid (spatial_weights sigma_spatial)),
    (1 / rsum2 (gauss_kernel sigma_spatial))%R.
  split; [apply create_spatial_kernel_run; [lra|lia]|].
  split; [apply lookup_insert_eq|].
  rewrite spatial_weights_tabulate, fin_grid_tabulate. split.
  - rewrite get2_tabulate by lia.
    by rewrite radius_centre, gauss_centre by lia.
  - intros u v x Hx.
    assert (u < side sigma_spatial ∧ v < side sigma_spatial) as [Hu Hv].
    { pose proof (rect_tabulate (side sigma_spatial) (side sigma_spatial)
        (λ i j, Fin (gauss sigma_spatial (kernel_size sigma_spatial `div` 2) i j
                     / rsum2 (gauss_kernel sigma_spatial)))) as Hrect.
      unfold get2 in Hx.
      destruct (tabulate _ _ _ !! u) as [row|] eqn:Hrow; [|done].
      simpl in Hx. split.
      - apply lookup_lt_Some in Hrow. by destruct Hrect as [<- _].
      - apply lookup_lt_Some in Hx.
        by rewrite (rect_lookup _ _ _ _ _ Hrect Hrow) in Hx. }
    rewrite get2_tabulate in Hx by done. injection Hx as <-.
    eexists. split; [done|].
    pose proof (gauss_le_centre sigma_spatial (kernel_size sigma_spatial `div` 2) u v
      ltac:(lra)) as Hle.
    unfold Rdiv. apply Rmult_le_compat_r; [|done].
    left. by apply Rinv_0_lt_compat.
Qed.

(** X8.  For every [sigma_spatial > 0] the kernel size lies within 1 of
    [3 * sigma_spatial], so the window reaches at most
    [1.5 * sigma_spatial] pixels from its centre. *)
Theorem X8_kernel_size_bounds (sigma_spatial : R) :
  (0 < sigma_spatial)%R →
  (3 * sigma_spatial - 1 < IZR (kernel_size sigma_spatial) <= 3 * sigma_spatial + 1)%R
  ∧ (INR (radius sigma_spatial) <= 3 * sigma_spatial / 2)%R.
Proof.
  intros Hs.
  pose proof (kernel_size_pos _ Hs) as Hk.
  assert (py_int (3 * sigma_spatial) = Zfloor (3 * sigma_spatial)) as Hint.
  { unfold py_int. destruct (Rle_dec 0 (3 * sigma_spatial)); [done|lra]. }
  pose proof (Zfloor_bound (3 * sigma_spatial)) as [Hlo Hhi].
  set (f := Zfloor (3 * sigma_spatial)) in *.
  assert (0 ≤ f)%Z as Hf by (apply (Zfloor_lub 0); simpl; lra).
  assert (f ≤ kernel_size sigma_spatial ≤ f + 1)%Z as [Hk1 Hk2].
  { unfold kernel_size. rewrite Hint, lor_1_odd. fold f. zdiv. }
  apply IZR_le in Hk1, Hk2. rewrite plus_IZR in Hk2.
  split; [lra|].
  rewrite INR_IZR_INZ, <- radius_centre by lia.
  rewrite kernel_size_div2, Hint. fold f.
  assert (2 * (f `div` 2) ≤ f)%Z as Hhalf by zdiv.
  apply IZR_le in Hhalf. rewrite mult_IZR in Hhalf. lra.
Qed.

(** X9.  For a positive [sigma_spatial], a non-zero [sigma_range] and
    finite arrays, the output is linear in the initial estimate: under
    one guide, the initial estimate [a * x + b * y] gives [a] times the
    output for [x] plus [b] times the output for [y]. *)
Theorem X9_linear_in_initial (s1 s2 s3 : store) llow lhigh (low1 low2 low3 guide x y : rgrid)
    h w (sigma_spatial sigma_range a b : R) :
  valid_call cv2_resize s1 llow lhigh (fin_grid low1) (fin_grid guide) (fin_grid x) h w →
  valid_call cv2_resize s2 llow lhigh (fin_grid low2) (fin_grid guide) (fin_grid y) h w →
  valid_call cv2_resize s3 llow lhigh
    (fin_grid low3) (fin_grid guide) (fin_grid (combine_grids a b x y)) h w →
  (0 < sigma_spatial)%R → sigma_range ≠ 0%R →
  ∃ (s1' s2' s3' : store) (l1 l2 l3 : loc) (out1 out2 out3 : ndarray),
    joint_bilateral_upsampling cv2_resize llow lhigh sigma_spatial sigma_range s1
    = (s1', inr l1)
    ∧ joint_bilateral_upsampling cv2_resize llow lhigh sigma_spatial sigma_range s2
      = (s2', inr l2)
    ∧ joint_bilateral_upsampling cv2_resize llow lhigh sigma_spatial sigma_range s3
      = (s3', inr l3)
    ∧ s1' !! l1 = Some out1 ∧ s2' !! l2 = Some out2 ∧ s3' !! l3 = Some out3
    ∧ ∀ i j, i < h → j < w →
        ∃ r1 r2 : R,
          get2 out1 i j = Some (Fin r1) ∧ get2 out2 i j = Some (Fin r2)
          ∧ get2 out3 i j = Some (Fin (a * r1 + b * r2)).
Proof.
  intros Hv1 Hv2 Hv3 Hss Hsr.
  pose proof (kernel_size_pos _ Hss) as Hk.
  destruct (joint_bilateral_upsampling_fin cv2_resize s1 llow lhigh low1 guide x
    h w sigma_spatial sigma_range Hv1)
    as (s1' & l1 & out1 & Hrun1 & Hout1 & Hcells1); [lra|lia|done|].
  destruct (joint_bilateral_upsampling_fin cv2_resize s2 llow lhigh low2 guide y
    h w sigma_spatial sigma_range Hv2)
    as (s2' & l2 & out2 & Hrun2 & Hout2 & Hcells2); [lra|lia|done|].
  destruct (joint_bilateral_upsampling_fin cv2_resize s3 llow lhigh low3 guide _
    h w sigma_spatial sigma_range Hv3)
    as (s3' & l3 & out3 & Hrun3 & Hout3 & Hcells3); [lra|lia|done|].
  destruct Hv1 as (_ & _ & _ & _ & _ & Hrx & Hh & Hw).
  destruct Hv2 as (_ & _ & _ & _ & _ & Hry & _ & _).
  apply rect_fin_grid_inv in Hrx, Hry.
  exists s1', s2', s3', l1, l2, l3, out1, out2, out3. repeat (split; [done|]).
  intros i j Hi Hj. eexists _, _.
  split; [by apply Hcells1|]. split; [by apply Hcells2|].
  rewrite Hcells3 by done. by rewrite pixel_value_linear.
Qed.


End Further.

(** * The error metric of [main] *)

Lemma Forall_concat_get2 {A} (P : A → Prop) (a : list (list A)) :
  Forall P (concat a) ↔ ∀ i j x, get2 a i j = Some x → P x.
Proof.
  rewrite Forall_forall. split.
  - intros Hall i j x Hx. by eapply Hall, elem_of_concat_get2.
  - intros Hget x Hin.
    apply list_elem_of_In, in_concat in Hin as (row & Hrow & Hx).
    apply list_elem_of_In, list_elem_of_lookup in Hrow as [i Hi].
    apply list_elem_of_In, list_elem_of_lookup in Hx as [j Hj].
    apply (Hget i j). unfold get2. by rewrite Hi.
Qed.

Lemma get2_zip_with2_Some {A B C} (g : A → B → C) a b i j z :
  get2 (zip_with (zip_with g) a b) i j = Some z ↔
  ∃ x y, get2 a i j = Some x ∧ get2 b i j = Some y ∧ z = g x y.
Proof.
  split.
  - unfold get2. intros Hz.
    destruct (zip_with _ a b !! i) as [row|] eqn:Hrow; [|done]. simpl in Hz.
    apply lookup_zip_with_Some in Hrow as (ra & rb & -> & Hra & Hrb).
    apply lookup_zip_with_Some in Hz as (x & y & -> & Hx & Hy).
    exists x, y. by rewrite Hra, Hrb.
  - intros (x & y & Hx & Hy & ->). by apply get2_zip_with2.
Qed.

Lemma zsum_bounds (l : list Z) :
  Forall (λ z, 0 ≤ z ≤ 255)%Z l →
  (0 ≤ foldr Z.add 0 l ≤ 255 * Z.of_nat (length l))%Z.
Proof. induction 1 as [|z l Hz Hall IH]; simpl length; simpl foldr; lia. Qed.

Lemma zsum_zero (l : list Z) :
  Forall (λ z, 0 ≤ z)%Z l → foldr Z.add 0%Z l = 0%Z ↔ Forall (λ z, z = 0%Z) l.
Proof.
  induction 1 as [|z l Hz Hall IH]; simpl foldr; [done|].
  assert (0 ≤ foldr Z.add 0 l)%Z as Hs.
  { clear IH. induction Hall; simpl; lia. }
  rewrite Forall_cons. rewrite <- IH. lia.
Qed.

(** In [uint8] a square is 0 exactly for the multiples of 16. *)
Lemma uint8_squares_checked :
  forallb (λ d, Bool.eqb (wrap_uint8 (d ^ 2) =? 0)%Z (d `mod` 16 =? 0)%Z)
          (Z.of_nat <$> seq 0 256) = true.
Proof. vm_compute. reflexivity. Qed.

Lemma uint8_square_zero (r g : Z) :
  wrap_uint8 (wrap_uint8 (r - g) ^ 2) = 0%Z ↔ ((r - g) `mod` 16 = 0)%Z.
Proof.
  set (d := wrap_uint8 (r - g)).
  assert (0 ≤ d < 256)%Z as Hd by (unfold d, wrap_uint8; apply Z.mod_pos_bound; lia).
  assert (d `mod` 16 = (r - g) `mod` 16)%Z as <- by (unfold d, wrap_uint8; zdiv).
  pose proof uint8_squares_checked as Hall.
  rewrite forallb_forall in Hall.
  specialize (Hall d). rewrite Bool.eqb_true_iff in Hall.
  rewrite <- !Z.eqb_eq. rewrite Hall; [done|].
  apply list_elem_of_In, list_elem_of_fmap. exists (Z.to_nat d).
  split; [lia|]. apply elem_of_seq. lia.
Qed.

Lemma squared_differences_range (result high : u8grid) i j z :
  get2 (squared_differences result high) i j = Some z → (0 ≤ z ≤ 255)%Z.
Proof.
  unfold squared_differences. rewrite get2_zip_with2_Some.
  intros (r & g & _ & _ & ->).
  generalize (wrap_uint8 (r - g) ^ 2)%Z. intros x. unfold wrap_uint8.
  pose proof (Z.mod_pos_bound x 256 ltac:(lia)). lia.
Qed.

Lemma rect_squared_differences h w (result high : u8grid) :
  rect h w result → rect h w high → rect h w (squared_differences result high).
Proof. apply rect_zip_with2. Qed.

Lemma concat_nonempty {A} h w (a : list (list A)) :
  rect h w a → 0 < h → 0 < w → 0 < length (concat a).
Proof.
  intros Ha Hh Hw. destruct (get2_is_Some h w a 0 0 Ha Hh Hw) as [x Hx].
  apply elem_of_concat_get2 in Hx. destruct (concat a); [|simpl; lia].
  by apply not_elem_of_nil in Hx.
Qed.

Lemma mean_squared_error_value h w (result high : u8grid) :
  rect h w result → rect h w high → 0 < h → 0 < w →
  mean_squared_error result high
  = inr (Fin (IZR (foldr Z.add 0%Z (concat (squared_differences result high)))
              / INR (length (concat (squared_differences result high))))).
Proof.
  intros Hr Hg Hh Hw. unfold mean_squared_error.
  rewrite (rect_shape0 _ _ _ Hr), (rect_shape0 _ _ _ Hg).
  rewrite (rect_shape1 _ _ _ Hr Hh), (rect_shape1 _ _ _ Hg Hh).
  destruct (decide (h = h ∧ w = w)) as [_|Hne]; [|by destruct Hne].
  unfold np_mean, nf_div.
  pose proof (concat_nonempty h w _ (rect_squared_differences h w _ _ Hr Hg) Hh Hw) as Hn.
  destruct (Req_dec_T _ 0) as [Hz|_]; [|done].
  exfalso. apply lt_0_INR in Hn. lra.
Qed.

(** X11.  On two [uint8] arrays of one non-empty shape, the error metric
    that [main] shows is a number between 0 and 255, whatever the
    images: the squares wrap around modulo 256. *)
Theorem X11_mse_bounds h w (result high : u8grid) :
  rect h w result → rect h w high → 0 < h → 0 < w →
  ∃ mse : R, mean_squared_error result high = inr (Fin mse) ∧ (0 <= mse <= 255)%R.
Proof.
  intros Hr Hg Hh Hw. eexists. split; [by apply (mean_squared_error_value h w)|].
  set (sq := squared_differences result high).
  pose proof (concat_nonempty h w _ (rect_squared_differences h w _ _ Hr Hg) Hh Hw) as Hn.
  fold sq in Hn.
  assert (Forall (λ z, 0 ≤ z ≤ 255)%Z (concat sq)) as Hall.
  { apply Forall_concat_get2. intros i j z. apply squared_differences_range. }
  apply zsum_bounds in Hall as [Hlo Hhi].
  apply IZR_le in Hlo, Hhi. rewrite mult_IZR, <- INR_IZR_INZ in Hhi.
  assert (0 < INR (length (concat sq)))%R as Hpos by (apply lt_0_INR; lia).
  split.
  - apply Rmult_le_reg_r with (INR (length (concat sq))); [done|].
    unfold Rdiv. rewrite Rmult_assoc, Rinv_l by lra. lra.
  - apply Rmult_le_reg_r with (INR (length (concat sq))); [done|].
    unfold Rdiv. rewrite Rmult_assoc, Rinv_l by lra. lra.
Qed.

(** X12.  On two [uint8] arrays of one non-empty shape, the error metric
    is 0 exactly when every pixel of the result differs from the guide by
    a multiple of 16; a metric of 0 does not say that the images are
    equal. *)
Theorem X12_mse_zero h w (result high : u8grid) :
  rect h w result → rect h w high → 0 < h → 0 < w →
  mean_squared_error result high = inr (Fin 0)
  ↔ ∀ i j r g, get2 result i j = Some r → get2 high i j = Some g →
      ((r - g) `mod` 16 = 0)%Z.
Proof.
  intros Hr Hg Hh Hw. rewrite (mean_squared_error_value h w) by done.
  set (sq := squared_differences result high).
  pose proof (concat_nonempty h w _ (rect_squared_differences h w _ _ Hr Hg) Hh Hw) as Hn.
  fold sq in Hn.
  assert (0 < INR (length (concat sq)))%R as Hpos by (apply lt_0_INR; lia).
  assert (Forall (λ z, 0 ≤ z)%Z (concat sq)) as Hnonneg.
  { apply Forall_concat_get2. intros i j z Hz.
    apply squared_differences_range in Hz. lia. }
  assert (foldr Z.add 0%Z (concat sq) = 0%Z
          ↔ ∀ i j r g, get2 result i j = Some r → get2 high i j = Some g →
              ((r - g) `mod` 16 = 0)%Z) as <-.
  { rewrite (zsum_zero _ Hnonneg), Forall_concat_get2. split.
    - intros Hall i j r g Hri Hgi. apply uint8_square_zero.
      apply (Hall i j). unfold sq, squared_differences.
      by apply (get2_zip_with2 (λ r h, wrap_uint8 (wrap_uint8 (r - h) ^ 2))).
    - intros Hall i j z Hz. unfold sq, squared_differences in Hz.
      apply get2_zip_with2_Some in Hz as (r & g & Hri & Hgi & ->).
      apply uint8_square_zero. by apply (Hall i j). }
  split.
  - intros [= Heq]. apply eq_IZR.
    apply (Rmult_eq_compat_r (INR (length (concat sq)))) in Heq.
    unfold Rdiv in Heq. rewrite Rmult_assoc, Rinv_l in Heq by lra. lra.
  - intros ->. do 2 f_equal. unfold Rdiv. lra.
Qed.

(** * [downscale_image]: the new size and the default output path *)

(** ** Separators in a path *)

Lemma rfind_sep_succ_nosep (x : path) : sep ∉ x → rfind_sep_succ x = 0.
Proof.
  induction x as [|c x IH]; intros Hx; [done|]. simpl.
  rewrite IH by (intros Hin; apply Hx; by right).
  destruct (decide (c = sep)) as [->|_]; [|done].
  exfalso. apply Hx. by left.
Qed.

Lemma rfind_sep_succ_app_nosep (a x : path) :
  sep ∉ x → rfind_sep_succ (a ++ x) = rfind_sep_succ a.
Proof.
  intros Hx. induction a as [|c a IH]; simpl.
  - by apply rfind_sep_succ_nosep.
  - by rewrite IH.
Qed.

Lemma rfind_sep_succ_snoc (a : path) : rfind_sep_succ (a ++ [sep]) = length a + 1.
Proof.
  induction a as [|c a IH]; simpl.
  - by destruct (decide (sep = sep)).
  - rewrite IH. by replace (length a + 1) with (S (length a)) by lia.
Qed.

Lemma rfind_sep_succ_mid (a x : path) :
  sep ∉ x → rfind_sep_succ (a ++ sep :: x) = length a + 1.
Proof.
  intros Hx. rewrite (cons_middle sep a x), (assoc_L (++)).
  by rewrite rfind_sep_succ_app_nosep, rfind_sep_succ_snoc.
Qed.

Lemma rfind_sep_succ_le (p : path) : rfind_sep_succ p ≤ length p.
Proof.
  induction p as [|c p IH]; simpl; [done|].
  destruct (rfind_sep_succ p); [destruct (decide (c = sep)); lia|lia].
Qed.

(** The part after the last separator holds no separator. *)
Lemma basename_nosep (p : path) : sep ∉ basename p.
Proof.
  unfold basename. induction p as [|c p IH]; simpl; [apply not_elem_of_nil|].
  destruct (rfind_sep_succ p) as [|k] eqn:Hk.
  - destruct (decide (c = sep)) as [->|Hne]; simpl.
    + by rewrite drop_0 in IH.
    + rewrite drop_0 in IH. by intros [?|?]%elem_of_cons.
  - done.
Qed.

Lemma rstrip_sep_snoc (a : path) : rstrip_sep (a ++ [sep]) = rstrip_sep a.
Proof.
  induction a as [|c a IH]; simpl.
  - by destruct (decide (sep = sep)).
  - by rewrite IH.
Qed.

Lemma rstrip_sep_last (p : path) : last (rstrip_sep p) ≠ Some sep.
Proof.
  induction p as [|c p IH]; simpl; [done|].
  destruct (rstrip_sep p) as [|x r] eqn:Hr.
  - destruct (decide (c = sep)); simpl; [done|congruence].
  - done.
Qed.

Lemma rstrip_sep_nil (p : path) :
  rstrip_sep p = [] → p = replicate (length p) sep.
Proof.
  induction p as [|c p IH]; simpl; [done|].
  destruct (rstrip_sep p) as [|x r] eqn:Hr; [|done].
  destruct (decide (c = sep)) as [->|_]; [|done].
  intros _. by rewrite <- IH.
Qed.

Lemma rstrip_sep_id (d : path) : last d ≠ Some sep → rstrip_sep d = d.
Proof.
  induction d as [|c d IH]; simpl; [done|]. intros Hlast.
  destruct d as [|x d'].
  - simpl. destruct (decide (c = sep)) as [->|_]; [done|done].
  - rewrite IH by done. done.
Qed.

Lemma last_replicate_sep n : last (replicate (S n) sep) = Some sep.
Proof.
  induction n as [|n IH]; [done|].
  change (replicate (S (S n)) sep) with (sep :: replicate (S n) sep).
  by rewrite last_cons, IH.
Qed.

(** ** Directory names *)

(** What [os.path.dirname] returns: the empty path, a run of
    separators, or a path that does not end with a separator. *)
Inductive dirname_form : path → Prop :=
| dirname_empty : dirname_form []
| dirname_root n : dirname_form (replicate (S n) sep)
| dirname_plain d : d ≠ [] → last d ≠ Some sep → dirname_form d.

Lemma dirname_has_form (p : path) : dirname_form (dirname p).
Proof.
  unfold dirname. set (head := take (rfind_sep_succ p) p).
  destruct (decide (head ≠ [] ∧ head ≠ replicate (length head) sep))
    as [[Hne Hnot]|Hno].
  - apply dirname_plain; [|apply rstrip_sep_last].
    intros Hnil. apply Hnot. by apply rstrip_sep_nil.
  - destruct (decide (head = [])) as [->|Hne]; [constructor|].
    destruct (decide (head = replicate (length head) sep)) as [->|Hnot].
    + destruct head as [|c head]; [done|]. simpl length. constructor.
    + exfalso. by apply Hno.
Qed.

(** Joining a directory name with a name that holds no separator, and
    splitting the result again. *)
Lemma split_join (d y : path) :
  dirname_form d → sep ∉ y →
  basename (path_join d y) = y ∧ dirname (path_join d y) = d.
Proof.
  intros Hd Hy. unfold path_join.
  destruct (decide (head y = Some sep)) as [Hhead|_].
  { exfalso. apply Hy. destruct y as [|c y]; [done|].
    injection Hhead as ->. by left. }
  destruct Hd as [|n|d Hne Hlast].
  - destruct (decide _) as [_|Hno]; [|exfalso; apply Hno; by left].
    simpl. unfold basename, dirname.
    rewrite rfind_sep_succ_nosep by done. by rewrite drop_0.
  - destruct (decide _) as [_|Hno];
      [|exfalso; apply Hno; right; apply last_replicate_sep].
    assert (rfind_sep_succ (replicate (S n) sep ++ y) = S n) as Hr.
    { rewrite rfind_sep_succ_app_nosep by done.
      replace (S n) with (n + 1) at 1 by lia.
      rewrite replicate_add. simpl replicate.
      rewrite rfind_sep_succ_snoc, length_replicate. lia. }
    unfold basename, dirname. rewrite Hr. split.
    + by rewrite drop_app_length' by (by rewrite length_replicate).
    + rewrite take_app_length' by (by rewrite length_replicate).
      rewrite length_replicate.
      by destruct (decide _) as [[_ Hnot]|_].
  - destruct (decide _) as [[?|?]|_]; [done|done|].
    unfold basename, dirname. rewrite rfind_sep_succ_mid by done. split.
    + rewrite (cons_middle sep d y), (assoc_L (++)).
      by rewrite drop_app_length' by (rewrite length_app; simpl; lia).
    + rewrite (cons_middle sep d y), (assoc_L (++)).
      rewrite take_app_length' by (rewrite length_app; simpl; lia).
      destruct (decide _) as [_|Hno].
      * by rewrite rstrip_sep_snoc, rstrip_sep_id.
      * exfalso. apply Hno. split; [by destruct d|].
        intros Hrep. apply Hlast.
        rewrite length_app in Hrep. simpl length in Hrep.
        rewrite replicate_add in Hrep. simpl replicate in Hrep.
        apply app_inj_tail in Hrep as [-> _].
        destruct (length d) eqn:Hlen; [by destruct d|].
        apply last_replicate_sep.
Qed.

Lemma downscaled_prefix_nosep : sep ∉ downscaled_prefix.
Proof.
  unfold downscaled_prefix, sep. simpl.
  rewrite !elem_of_cons. intros H.
  repeat (destruct H as [H|H]; [discriminate H|]).
  by apply not_elem_of_nil in H.
Qed.

Lemma default_output_path_split (image_path : path) :
  basename (default_output_path image_path) = downscaled_prefix ++ basename image_path
  ∧ dirname (default_output_path image_path) = dirname image_path.
Proof.
  unfold default_output_path. apply split_join; [apply dirname_has_form|].
  rewrite elem_of_app. intros [H|H].
  - by apply downscaled_prefix_nosep.
  - by apply (basename_nosep image_path).
Qed.

(** ** The path functions on small inputs *)

Example dirname_file :
  dirname (String.list_ascii_of_string "img/a.png") = String.list_ascii_of_string "img".
Proof. reflexivity. Qed.

Example dirname_double_sep :
  dirname (String.list_ascii_of_string "img//a.png") = String.list_ascii_of_string "img".
Proof. reflexivity. Qed.

Example dirname_of_root_file :
  dirname (String.list_ascii_of_string "/a.png") = String.list_ascii_of_string "/".
Proof. reflexivity. Qed.

Example default_output_path_in_directory :
  default_output_path (String.list_ascii_of_string "img/a.png")
  = String.list_ascii_of_string "img/downscaled_a.png".
Proof. reflexivity. Qed.

Example default_output_path_bare_name :
  default_output_path (String.list_ascii_of_string "a.png")
  = String.list_ascii_of_string "downscaled_a.png".
Proof. reflexivity. Qed.

Example default_output_path_at_root :
  default_output_path (String.list_ascii_of_string "/a.png")
  = String.list_ascii_of_string "/downscaled_a.png".
Proof. reflexivity. Qed.

(** X13.  For an image with positive sides, the new size never holds
    more than a quarter of the pixels, it holds exactly a quarter when
    both sides are even and only then, and a side of one pixel becomes a
    side of no pixel. *)
Theorem X13_new_size_quarter (width height : nat) :
  0 < width → 0 < height →
  let new_width := (new_size width height).1 in
  let new_height := (new_size width height).2 in
  4 * (new_width * new_height) ≤ width * height
  ∧ (4 * (new_width * new_height) = width * height
     ↔ Nat.even width = true ∧ Nat.even height = true)
  ∧ (new_width = 0 ↔ width = 1) ∧ (new_height = 0 ↔ height = 1).
Proof.
  intros Hw Hh. unfold new_size. cbn [fst snd].
  pose proof (Nat.div_mod_eq width 2) as Hdw.
  pose proof (Nat.div_mod_eq height 2) as Hdh.
  pose proof (Nat.mod_upper_bound width 2 ltac:(lia)) as Hmw.
  pose proof (Nat.mod_upper_bound height 2 ltac:(lia)) as Hmh.
  rewrite !Nat.even_spec.
  set (a := width `div` 2) in *. set (b := height `div` 2) in *.
  set (r := width `mod` 2) in *. set (t := height `mod` 2) in *.
  split; [nia|]. split; [|lia].
  split.
  - intros Heq. assert (r = 0 ∧ t = 0) as [Hr Ht] by nia.
    split; [exists a; lia|exists b; lia].
  - intros [[m Hm] [n Hn]]. assert (r = 0 ∧ t = 0) as [Hr Ht] by lia. nia.
Qed.

(** X14.  The default output path is the input's file name with
    ['downscaled_'] in front, in the input's directory:
    [os.path.basename] and [os.path.dirname] of it give these back, for
    every input path. *)
Theorem X14_default_output_path_split (image_path : path) :
  basename (default_output_path image_path) = downscaled_prefix ++ basename image_path
  ∧ dirname (default_output_path image_path) = dirname image_path.
Proof. apply default_output_path_split. Qed.

(** X15.  The default output path is never the input path itself, for
    every input path. *)
Theorem X15_default_output_path_differs (image_path : path) :
  default_output_path image_path ≠ image_path.
Proof.
  intros Heq.
  destruct (default_output_path_split image_path) as [Hbase _].
  rewrite Heq in Hbase. apply (f_equal length) in Hbase.
  rewrite length_app in Hbase. unfold downscaled_prefix in Hbase.
  simpl in Hbase. lia.
Qed.

(** * Instances of the further properties *)

Lemma X1_empty_coarse_raises_witness :
  joint_bilateral_upsampling resize_nearest 0 1 1 10 ex_empty_store
  = (ex_empty_store, inl ZeroDivisionError).
Proof.
  apply (X1_empty_coarse_raises resize_nearest ex_empty_store 0 1 [] (fin_grid ex_guide));
    reflexivity.
Defined.

Lemma X3_sigma_range_zero_nan_witness :
  ∃ (s' : store) (lres : loc) (out : ndarray),
    joint_bilateral_upsampling resize_nearest 0 1 1 0 ex_store = (s', inr lres)
    ∧ s' !! lres = Some out
    ∧ get2 out 0 0 = Some NaN.
Proof.
  assert (0 < 1)%R as H1 by lra.
  destruct (X3_sigma_range_zero_nan resize_nearest ex_store 0 1 _ _ _ 4 4 1%R
    ex_valid H1) as (s' & lres & out & Hrun & Hout & _ & Hcells).
  exists s', lres, out. split; [exact Hrun|]. split; [exact Hout|].
  assert (0 < 4) as H4 by lia. exact (Hcells 0 0 H4 H4).
Defined.

Lemma ex_initial_range a b : a < 4 → b < 4 → (0 <= at2 ex_initial a b <= 30)%R.
Proof.
  intros Ha Hb.
  destruct a as [|[|[|[|a]]]]; [| | | |lia];
    (destruct b as [|[|[|[|b]]]]; [| | | |lia]);
    unfold at2; simpl; lra.
Qed.

Lemma X4_output_within_range_witness :
  ∃ (s' : store) (lres : loc) (out : ndarray),
    joint_bilateral_upsampling resize_nearest 0 1 1 10 ex_store = (s', inr lres)
    ∧ s' !! lres = Some out
    ∧ ∃ r : R, get2 out 0 0 = Some (Fin r) ∧ (0 <= r <= 30)%R.
Proof.
  assert (0 < 1)%R as H1 by lra. assert (0 < 10)%R as H10 by lra.
  destruct (X4_output_within_range resize_nearest ex_store 0 1 _ _ _ 4 4 1%R 10%R 30%R
    ex_valid H1 H10 ex_initial_range) as (s' & lres & out & Hrun & Hout & Hcells).
  exists s', lres, out. split; [exact Hrun|]. split; [exact Hout|].
  assert (0 < 4) as H4 by lia. exact (Hcells 0 0 H4 H4).
Defined.

Lemma ex_shifted_valid :
  valid_call resize_nearest ex_shifted_store 0 1
    (fin_grid ex_low) (fin_grid (shift_grid 5 ex_guide)) (fin_grid ex_initial) 4 4.
Proof.
  unfold valid_call. repeat split; try done; try lia.
  - repeat constructor.
  - repeat constructor.
Qed.

Lemma X5_guide_offset_witness :
  ∃ (s1' s2' : store) (l1 l2 : loc) (out1 out2 : ndarray),
    joint_bilateral_upsampling resize_nearest 0 1 1 10 ex_store = (s1', inr l1)
    ∧ joint_bilateral_upsampling resize_nearest 0 1 1 10 ex_shifted_store = (s2', inr l2)
    ∧ s1' !! l1 = Some out1 ∧ s2' !! l2 = Some out2
    ∧ get2 out2 1 2 = get2 out1 1 2.
Proof.
  assert (0 < 1)%R as H1 by lra. assert (10 ≠ 0)%R as H10 by lra.
  destruct (X5_guide_offset resize_nearest ex_store ex_shifted_store 0 1 _ _ _ 4 4
    1%R 10%R 5%R ex_valid ex_shifted_valid H1 H10)
    as (s1' & s2' & l1 & l2 & out1 & out2 & Hrun1 & Hrun2 & Hout1 & Hout2 & Hcells).
  exists s1', s2', l1, l2, out1, out2.
  split; [exact Hrun1|]. split; [exact Hrun2|]. split; [exact Hout1|].
  split; [exact Hout2|].
  assert (1 < 4) as Ha by lia. assert (2 < 4) as Hb by lia. exact (Hcells 1 2 Ha Hb).
Defined.

Lemma X6_kernel_symmetric_witness :
  ∃ (s' : store) (l : loc) (k : ndarray),
    create_spatial_kernel 1 ∅ = (s', inr l) ∧ s' !! l = Some k
    ∧ get2 k 1 0 = get2 k 0 1.
Proof.
  assert (0 < 1)%R as H1 by lra.
  destruct (X6_kernel_symmetric 1 ∅ H1) as (s' & l & k & Hrun & Hk & Hsym).
  exists s', l, k. split; [exact Hrun|]. split; [exact Hk|].
  assert (0 < side 1) as H0 by (unfold side; rewrite kernel_size_one; lia).
  assert (1 < side 1) as H1' by (unfold side; rewrite kernel_size_one; lia).
  exact (proj1 (Hsym 0 1 H0 H1')).
Defined.

Lemma X7_kernel_centre_largest_witness :
  ∃ (s' : store) (l : loc) (k : ndarray) (top : R),
    create_spatial_kernel 1 ∅ = (s', inr l) ∧ s' !! l = Some k
    ∧ get2 k (radius 1) (radius 1) = Some (Fin top).
Proof.
  assert (0 < 1)%R as H1 by lra.
  destruct (X7_kernel_centre_largest 1 ∅ H1) as (s' & l & k & top & Hrun & Hk & Htop & _).
  by exists s', l, k, top.
Defined.

Lemma X8_kernel_size_bounds_witness :
  (3 * 1 - 1 < IZR (kernel_size 1) <= 3 * 1 + 1)%R.
Proof.
  assert (0 < 1)%R as H1 by lra.
  exact (proj1 (X8_kernel_size_bounds 1 H1)).
Defined.

Lemma ex2_valid :
  valid_call resize_nearest ex2_store 0 1
    (fin_grid ex2_low) (fin_grid ex_guide) (fin_grid ex2_initial) 4 4.
Proof.
  unfold valid_call. repeat split; try done; try lia.
  - repeat constructor.
  - repeat constructor.
Qed.

Lemma ex3_valid :
  valid_call resize_nearest ex3_store 0 1
    (fin_grid (combine_grids 3 4 ex_low ex2_low)) (fin_grid ex_guide)
    (fin_grid (combine_grids 3 4 ex_initial ex2_initial)) 4 4.
Proof.
  unfold valid_call. repeat split; try done; try lia.
  - repeat constructor.
  - repeat constructor.
Qed.

(** Three calls under the 4 by 4 guide with an edge, with a 3 by 3
    kernel ([sigma_spatial = 1]): at pixel (1, 2), whose window spans the
    edge, the output for [3 * x + 4 * y] is 3 times the output for [x]
    plus 4 times the output for [y]. *)
Lemma X9_linear_in_initial_witness :
  side 1 = 3
  ∧ ∃ (s1' s2' s3' : store) (l1 l2 l3 : loc) (out1 out2 out3 : ndarray) (r1 r2 : R),
      joint_bilateral_upsampling resize_nearest 0 1 1 10 ex_store = (s1', inr l1)
      ∧ joint_bilateral_upsampling resize_nearest 0 1 1 10 ex2_store = (s2', inr l2)
      ∧ joint_bilateral_upsampling resize_nearest 0 1 1 10 ex3_store = (s3', inr l3)
      ∧ s1' !! l1 = Some out1 ∧ s2' !! l2 = Some out2 ∧ s3' !! l3 = Some out3
      ∧ get2 out1 1 2 = Some (Fin r1) ∧ get2 out2 1 2 = Some (Fin r2)
      ∧ get2 out3 1 2 = Some (Fin (3 * r1 + 4 * r2)).
Proof.
  split; [unfold side; rewrite kernel_size_one; reflexivity|].
  assert (0 < 1)%R as Hs by lra. assert (10 ≠ 0)%R as H10 by lra.
  destruct (X9_linear_in_initial resize_nearest ex_store ex2_store ex3_store 0 1
    _ _ _ _ _ _ 4 4 1%R 10%R 3%R 4%R ex_valid ex2_valid ex3_valid Hs H10)
    as (s1' & s2' & s3' & l1 & l2 & l3 & out1 & out2 & out3
        & Hrun1 & Hrun2 & Hrun3 & Hout1 & Hout2 & Hout3 & Hcells).
  assert (1 < 4) as Ha by lia. assert (2 < 4) as Hb by lia.
  destruct (Hcells 1 2 Ha Hb) as (r1 & r2 & Hc1 & Hc2 & Hc3).
  exists s1', s2', s3', l1, l2, l3, out1, out2, out3, r1, r2.
  split; [exact Hrun1|]. split; [exact Hrun2|]. split; [exact Hrun3|].
  split; [exact Hout1|]. split; [exact Hout2|]. split; [exact Hout3|].
  split; [exact Hc1|]. split; [exact Hc2|exact Hc3].
Defined.




Lemma rect_ex_u8_result : rect 2 2 ex_u8_result.
Proof. split; [done|]. repeat constructor. Qed.

Lemma rect_ex_u8_guide : rect 2 2 ex_u8_guide.
Proof. split; [done|]. repeat constructor. Qed.

Lemma X11_mse_bounds_witness :
  ∃ mse : R,
    mean_squared_error ex_u8_result ex_u8_guide = inr (Fin mse)
    ∧ (0 <= mse <= 255)%R.
Proof.
  assert (0 < 2) as H2 by lia.
  exact (X11_mse_bounds 2 2 _ _ rect_ex_u8_result rect_ex_u8_guide H2 H2).
Defined.

Lemma ex_u8_multiples i j r g :
  get2 ex_u8_result i j = Some r → get2 ex_u8_guide i j = Some g →
  ((r - g) `mod` 16 = 0)%Z.
Proof.
  destruct i as [|[|i]]; [| |done]; (destruct j as [|[|j]]; [| |done]);
    simpl; intros [= <-] [= <-]; reflexivity.
Qed.

(** Two images that differ, with an error metric of 0. *)
Lemma X12_mse_zero_witness :
  ex_u8_result ≠ ex_u8_guide
  ∧ mean_squared_error ex_u8_result ex_u8_guide = inr (Fin 0).
Proof.
  split; [discriminate|].
  assert (0 < 2) as H2 by lia.
  exact (proj2 (X12_mse_zero 2 2 _ _ rect_ex_u8_result rect_ex_u8_guide H2 H2)
           ex_u8_multiples).
Defined.

Lemma X13_new_size_quarter_witness :
  4 * ((new_size 5 4).1 * (new_size 5 4).2) ≤ 5 * 4
  ∧ ((new_size 1 4).1 = 0 ↔ 1 = 1).
Proof.
  assert (0 < 5) as H5 by lia. assert (0 < 4) as H4 by lia.
  assert (0 < 1) as H1 by lia.
  split.
  - exact (proj1 (X13_new_size_quarter 5 4 H5 H4)).
  - exact (proj1 (proj2 (proj2 (X13_new_size_quarter 1 4 H1 H4)))).
Defined.

(** On the 4 by 4 example with the 3 by 3 kernel, the blur at pixel
    (1, 2) is a sum over nine cells and is not the value of the pixel
    itself (which is 10): the window holds 20s and 30s below it. *)
Example spatial_blur_mixes_window :
  at2 ex_initial 1 2 = 10%R ∧ (10 < spatial_blur 1 4 4 ex_initial 1 2)%R.
Proof.
  split; [reflexivity|].
  assert (side 1 = 3) as Hside by (unfold side; by rewrite kernel_size_one).
  assert (radius 1 = 1) as Hrad by (unfold radius; by rewrite kernel_size_one).
  assert (0 ≤ kernel_size 1)%Z as Hk by (rewrite kernel_size_one; lia).
  pose proof (spatial_weights_sum 1 Hk) as Hsum.
  rewrite (fin_grid_ext _ _ _ (rect_spatial_weights 1)) in Hsum.
  assert (∀ u v, u < 3 → v < 3 → (0 < at2 (spatial_weights 1) u v)%R) as Hpos.
  { intros u v Hu Hv. apply spatial_weight_pos; [done|lia|lia]. }
  assert (∀ u v u' v', u < 3 → v < 3 → u' < 3 → v' < 3 →
    ((Z.of_nat u - 1) ^ 2 + (Z.of_nat v - 1) ^ 2
     = (Z.of_nat u' - 1) ^ 2 + (Z.of_nat v' - 1) ^ 2)%Z →
    at2 (spatial_weights 1) u v = at2 (spatial_weights 1) u' v') as Hsame.
  { intros u v u' v' Hu Hv Hu' Hv' Heq.
    rewrite spatial_weights_tabulate, !at2_tabulate by lia.
    unfold gauss. rewrite kernel_size_one.
    change (3 `div` 2)%Z with 1%Z. by rewrite Heq. }
  pose proof (Hsame 0 0 2 0 ltac:(lia) ltac:(lia) ltac:(lia) ltac:(lia) eq_refl) as H00.
  pose proof (Hsame 1 0 2 1 ltac:(lia) ltac:(lia) ltac:(lia) ltac:(lia) eq_refl) as H10.
  pose proof (Hpos 2 1 ltac:(lia) ltac:(lia)) as P21.
  pose proof (Hpos 2 2 ltac:(lia) ltac:(lia)) as P22.
  unfold spatial_blur. rewrite Hside, Hrad in *.
  unfold rsum2, rsum, tabulate, clamp in *. simpl in Hsum |- *.
  change (at2 ex_initial 0 1) with 0%R. change (at2 ex_initial 0 2) with 10%R.
  change (at2 ex_initial 0 3) with 10%R. change (at2 ex_initial 1 1) with 0%R.
  change (at2 ex_initial 1 2) with 10%R. change (at2 ex_initial 1 3) with 10%R.
  change (at2 ex_initial 2 1) with 20%R. change (at2 ex_initial 2 2) with 30%R.
  change (at2 ex_initial 2 3) with 30%R.
  lra.
Qed.
